(** * Dockershim metrics: a shallow embedding of
      [pkg/kubelet/dockershim/metrics/metrics.go]

    The Go package declares eight metric collectors, installs them into the
    process-wide legacy registry behind a [sync.Once], and offers two helpers
    that turn a start timestamp into an elapsed duration.  This development
    embeds the three parts and states the package's contract over them. *)

From Stdlib Require Import ZArith QArith Qabs Qround Qpower List String Bool Lia Lqa.
From Stdlib Require Finite Floats Uint63.
Import ListNotations.

Local Open Scope string_scope.
Local Open Scope list_scope.
Local Open Scope Z_scope.

(** ** The collector options of [k8s.io/component-base/metrics]

    Modelled from the spec: the option types and the [New...Vec]
    constructors are declared in [k8s.io/component-base/metrics], outside the
    package under study.  The spec's MetricSeries lists their attributes
    (subsystem, name, kind, help text, label dimensions, stability tag,
    optional deprecation version, buckets for a histogram); the field names
    are those of the composite literals in metrics.go.  Only the fields the
    package sets are kept; a Go field left out of a composite literal has its
    zero value, which for [DeprecatedVersion] is the empty string. *)

Module metrics.

Inductive StabilityLevel : Set := ALPHA | STABLE.

(** [float64] values that are written as decimal literals are kept as the
    rationals they denote. *)
Definition float64_literal := Q.

(** Modelled from the spec: [metrics.DefBuckets] is declared in
    [k8s.io/component-base/metrics], outside the package under study, as an
    alias of the Prometheus client's default buckets.  The spec describes it
    as a fixed, predefined set of bucket boundaries for sub-second to
    multi-second latencies; the boundaries below are the client library's. *)
Definition DefBuckets : list float64_literal :=
  [0.005; 0.01; 0.025; 0.05; 0.1; 0.25; 0.5; 1; 2.5; 5; 10]%Q.

Module HistogramOpts.
Record t : Type := mk {
  Subsystem : string;
  Name : string;
  Help : string;
  Buckets : list float64_literal;
  StabilityLevel : metrics.StabilityLevel;
  DeprecatedVersion : string
}.
End HistogramOpts.

Module CounterOpts.
Record t : Type := mk {
  Subsystem : string;
  Name : string;
  Help : string;
  StabilityLevel : metrics.StabilityLevel;
  DeprecatedVersion : string
}.
End CounterOpts.

Module SummaryOpts.
Record t : Type := mk {
  Subsystem : string;
  Name : string;
  Help : string;
  StabilityLevel : metrics.StabilityLevel;
  DeprecatedVersion : string
}.
End SummaryOpts.

(** What [NewHistogramVec], [NewCounterVec] and [NewSummaryVec] build: the
    options together with the label names.  All three are [Registerable]. *)
Inductive Registerable : Type :=
| NewHistogramVec (opts : HistogramOpts.t) (labels : list string)
| NewCounterVec (opts : CounterOpts.t) (labels : list string)
| NewSummaryVec (opts : SummaryOpts.t) (labels : list string).

Inductive Kind : Set := Histogram | Counter | Summary.

Definition kind (c : Registerable) : Kind :=
  match c with
  | NewHistogramVec _ _ => Histogram
  | NewCounterVec _ _ => Counter
  | NewSummaryVec _ _ => Summary
  end.

Definition subsystem (c : Registerable) : string :=
  match c with
  | NewHistogramVec o _ => HistogramOpts.Subsystem o
  | NewCounterVec o _ => CounterOpts.Subsystem o
  | NewSummaryVec o _ => SummaryOpts.Subsystem o
  end.

Definition name (c : Registerable) : string :=
  match c with
  | NewHistogramVec o _ => HistogramOpts.Name o
  | NewCounterVec o _ => CounterOpts.Name o
  | NewSummaryVec o _ => SummaryOpts.Name o
  end.

Definition help (c : Registerable) : string :=
  match c with
  | NewHistogramVec o _ => HistogramOpts.Help o
  | NewCounterVec o _ => CounterOpts.Help o
  | NewSummaryVec o _ => SummaryOpts.Help o
  end.

Definition stabilityLevel (c : Registerable) : StabilityLevel :=
  match c with
  | NewHistogramVec o _ => HistogramOpts.StabilityLevel o
  | NewCounterVec o _ => CounterOpts.StabilityLevel o
  | NewSummaryVec o _ => SummaryOpts.StabilityLevel o
  end.

Definition deprecatedVersion (c : Registerable) : string :=
  match c with
  | NewHistogramVec o _ => HistogramOpts.DeprecatedVersion o
  | NewCounterVec o _ => CounterOpts.DeprecatedVersion o
  | NewSummaryVec o _ => SummaryOpts.DeprecatedVersion o
  end.

Definition labels (c : Registerable) : list string :=
  match c with
  | NewHistogramVec _ l | NewCounterVec _ l | NewSummaryVec _ l => l
  end.

(** Only a histogram has bucket boundaries. *)
Definition buckets (c : Registerable) : option (list float64_literal) :=
  match c with
  | NewHistogramVec o _ => Some (HistogramOpts.Buckets o)
  | _ => None
  end.

(** A series carries a deprecation marker when its [DeprecatedVersion] is
    not the zero value. *)
Definition isDeprecated (c : Registerable) : bool :=
  negb (deprecatedVersion c =? "")%string.

(** The identity a series is known by: its (subsystem, name) pair. *)
Definition identity (c : Registerable) : string * string :=
  (subsystem c, name c).

Definition sameIdentity (c d : Registerable) : bool :=
  ((subsystem c =? subsystem d) && (name c =? name d))%string.

End metrics.

Import metrics.

(** ** The package's constants (metrics.go, lines 27-48) *)

Definition DockerOperationsKey := "docker_operations_total".
Definition DockerOperationsLatencyKey := "docker_operations_duration_seconds".
Definition DockerOperationsErrorsKey := "docker_operations_errors_total".
Definition DockerOperationsTimeoutKey := "docker_operations_timeout_total".

Definition DeprecatedDockerOperationsKey := "docker_operations".
Definition DeprecatedDockerOperationsLatencyKey :=
  "docker_operations_latency_microseconds".
Definition DeprecatedDockerOperationsErrorsKey := "docker_operations_errors".
Definition DeprecatedDockerOperationsTimeoutKey := "docker_operations_timeout".

Definition kubeletSubsystem := "kubelet".

(** ** The eight collectors (metrics.go, lines 50-141) *)

Definition DockerOperationsLatency : Registerable :=
  NewHistogramVec
    {| HistogramOpts.Subsystem := kubeletSubsystem;
       HistogramOpts.Name := DockerOperationsLatencyKey;
       HistogramOpts.Help :=
         "Latency in seconds of Docker operations. Broken down by operation type.";
       HistogramOpts.Buckets := DefBuckets;
       HistogramOpts.StabilityLevel := ALPHA;
       HistogramOpts.DeprecatedVersion := "" |}
    ["operation_type"].

Definition DockerOperations : Registerable :=
  NewCounterVec
    {| CounterOpts.Subsystem := kubeletSubsystem;
       CounterOpts.Name := DockerOperationsKey;
       CounterOpts.Help :=
         "Cumulative number of Docker operations by operation type.";
       CounterOpts.StabilityLevel := ALPHA;
       CounterOpts.DeprecatedVersion := "" |}
    ["operation_type"].

Definition DockerOperationsErrors : Registerable :=
  NewCounterVec
    {| CounterOpts.Subsystem := kubeletSubsystem;
       CounterOpts.Name := DockerOperationsErrorsKey;
       CounterOpts.Help :=
         "Cumulative number of Docker operation errors by operation type.";
       CounterOpts.StabilityLevel := ALPHA;
       CounterOpts.DeprecatedVersion := "" |}
    ["operation_type"].

Definition DockerOperationsTimeout : Registerable :=
  NewCounterVec
    {| CounterOpts.Subsystem := kubeletSubsystem;
       CounterOpts.Name := DockerOperationsTimeoutKey;
       CounterOpts.Help :=
         "Cumulative number of Docker operation timeout by operation type.";
       CounterOpts.StabilityLevel := ALPHA;
       CounterOpts.DeprecatedVersion := "" |}
    ["operation_type"].

Definition DeprecatedDockerOperationsLatency : Registerable :=
  NewSummaryVec
    {| SummaryOpts.Subsystem := kubeletSubsystem;
       SummaryOpts.Name := DeprecatedDockerOperationsLatencyKey;
       SummaryOpts.Help :=
         "Latency in microseconds of Docker operations. Broken down by operation type.";
       SummaryOpts.StabilityLevel := ALPHA;
       SummaryOpts.DeprecatedVersion := "1.14.0" |}
    ["operation_type"].

Definition DeprecatedDockerOperations : Registerable :=
  NewCounterVec
    {| CounterOpts.Subsystem := kubeletSubsystem;
       CounterOpts.Name := DeprecatedDockerOperationsKey;
       CounterOpts.Help :=
         "Cumulative number of Docker operations by operation type.";
       CounterOpts.StabilityLevel := ALPHA;
       CounterOpts.DeprecatedVersion := "1.14.0" |}
    ["operation_type"].

Definition DeprecatedDockerOperationsErrors : Registerable :=
  NewCounterVec
    {| CounterOpts.Subsystem := kubeletSubsystem;
       CounterOpts.Name := DeprecatedDockerOperationsErrorsKey;
       CounterOpts.Help :=
         "Cumulative number of Docker operation errors by operation type.";
       CounterOpts.StabilityLevel := ALPHA;
       CounterOpts.DeprecatedVersion := "1.14.0" |}
    ["operation_type"].

Definition DeprecatedDockerOperationsTimeout : Registerable :=
  NewCounterVec
    {| CounterOpts.Subsystem := kubeletSubsystem;
       CounterOpts.Name := DeprecatedDockerOperationsTimeoutKey;
       CounterOpts.Help :=
         "Cumulative number of Docker operation timeout by operation type.";
       CounterOpts.StabilityLevel := ALPHA;
       CounterOpts.DeprecatedVersion := "1.14.0" |}
    ["operation_type"].

(** The four current and the four deprecated series, in declaration order. *)
Definition currentSeries : list Registerable :=
  [DockerOperationsLatency; DockerOperations;
   DockerOperationsErrors; DockerOperationsTimeout].

Definition deprecatedSeries : list Registerable :=
  [DeprecatedDockerOperationsLatency; DeprecatedDockerOperations;
   DeprecatedDockerOperationsErrors; DeprecatedDockerOperationsTimeout].

Definition allSeries : list Registerable := currentSeries ++ deprecatedSeries.

(** The eight name constants, in declaration order. *)
Definition allKeys : list string :=
  [DockerOperationsKey; DockerOperationsLatencyKey;
   DockerOperationsErrorsKey; DockerOperationsTimeoutKey;
   DeprecatedDockerOperationsKey; DeprecatedDockerOperationsLatencyKey;
   DeprecatedDockerOperationsErrorsKey; DeprecatedDockerOperationsTimeoutKey].

(** ** Go control flow: a call either returns or panics

    A computation threads the package-level state and ends in one of two
    ways.  There is no third, "recoverable error" outcome: none of the
    functions modelled here has an [error] result. *)

Inductive Outcome : Set :=
| Returned
| Panicked (msg : string).

Module sync.
(** [sync.Once]: the [done] flag is all that a sequential caller observes. *)
Record Once : Set := mkOnce { done : bool }.
Definition zero : Once := mkOnce false.
End sync.

Module legacyregistry.

(** Modelled from the spec: the registry of
    [k8s.io/component-base/metrics/legacyregistry] is not part of the
    package under study.  The spec gives it as a process-wide sink with the
    operation "install series, rejecting duplicate identities": it is kept
    here as the list of installed collectors, in installation order. *)
Definition Registry := list Registerable.

(** Modelled from the spec: a collector is a duplicate when a collector of
    the same (subsystem, name) identity is installed already. *)
Definition collides (c : Registerable) (r : Registry) : bool :=
  existsb (sameIdentity c) r.

(** Modelled from the spec: the error-returning installation behind
    [MustRegister]; [None] is the rejection of a duplicate identity. *)
Definition Register (c : Registerable) (r : Registry) : option Registry :=
  if collides c r then None else Some (r ++ [c]).

End legacyregistry.

(** The package-level variables: [registerMetrics] and the shared registry
    the [legacyregistry] functions act on. *)
Record World : Type := mkWorld {
  registerMetrics : sync.Once;
  defaultRegistry : legacyregistry.Registry
}.

Definition Go : Type := World -> Outcome * World.

(** Sequencing two statements: a panic in the first unwinds past the second. *)
Definition seq (f g : Go) : Go :=
  fun w =>
    match f w with
    | (Returned, w') => g w'
    | (Panicked msg, w') => (Panicked msg, w')
    end.

Declare Scope go_scope.
Delimit Scope go_scope with go.
Notation "f ;; g" := (seq f g) (at level 61, right associativity) : go_scope.

(** Modelled from the spec: [legacyregistry.MustRegister], which is not part
    of the package under study, installs the collector and panics when the
    registry rejects it (the spec's fatal configuration error).  A rejected
    collector leaves the registry as it was. *)
Definition MustRegister (c : Registerable) : Go :=
  fun w =>
    match legacyregistry.Register c (defaultRegistry w) with
    | Some r => (Returned, mkWorld (registerMetrics w) r)
    | None => (Panicked "duplicate metrics collector registration attempted", w)
    end.

(** [Do] of [sync.Once]: runs [f] unless [done] is set.  The flag is set by
    a deferred store, hence also when [f] panics. *)
Definition Once_Do (f : Go) : Go :=
  fun w =>
    if sync.done (registerMetrics w) then (Returned, w)
    else
      let '(o, w') := f w in
      (o, mkWorld (sync.mkOnce true) (defaultRegistry w')).

(** [Register] (metrics.go, lines 145-157). *)
Definition Register : Go :=
  Once_Do
    (MustRegister DockerOperationsLatency ;;
     MustRegister DockerOperations ;;
     MustRegister DockerOperationsErrors ;;
     MustRegister DockerOperationsTimeout ;;
     MustRegister DeprecatedDockerOperationsLatency ;;
     MustRegister DeprecatedDockerOperations ;;
     MustRegister DeprecatedDockerOperationsErrors ;;
     MustRegister DeprecatedDockerOperationsTimeout)%go.

(** The state of a process in which [Register] has not run yet, over a
    registry other packages may already have written to. *)
Definition processStart (r : legacyregistry.Registry) : World :=
  mkWorld sync.zero r.

(** [n] calls of [Register] in a row: the outcomes, first call first, and the
    final state. *)
Fixpoint RegisterTimes (n : nat) (w : World) : list Outcome * World :=
  match n with
  | O => ([], w)
  | S k =>
      let '(o, w') := Register w in
      let '(os, w'') := RegisterTimes k w' in
      (o :: os, w'')
  end.

(** How many installed collectors carry the identity of [c]. *)
Definition installed (c : Registerable) (r : legacyregistry.Registry) : nat :=
  List.length (filter (sameIdentity c) r).

(** No collector of [cs] has an identity already present in [r]. *)
Definition fresh (cs : list Registerable) (r : legacyregistry.Registry) : Prop :=
  forall c, In c cs -> legacyregistry.collides c r = false.

(** Installing a list of collectors one after the other, as the body of
    [Register] does with [allSeries]. *)
Fixpoint MustRegisterAll (cs : list Registerable) : Go :=
  match cs with
  | [] => fun w => (Returned, w)
  | c :: cs' => (MustRegister c ;; MustRegisterAll cs')%go
  end.

(** ** Machine numbers *)

Module int64.
Definition min : Z := - 2 ^ 63.
Definition max : Z := 2 ^ 63 - 1.

Definition inRange (z : Z) : Prop := min <= z <= max.

(** Two's-complement wrap-around into the 64-bit signed range. *)
Definition wrap (z : Z) : Z := (z + 2 ^ 63) mod 2 ^ 64 - 2 ^ 63.

(** Go's [/] and [%] on integers truncate toward zero. *)
Definition div (a b : Z) : Z := wrap (Z.quot a b).
Definition rem (a b : Z) : Z := wrap (Z.rem a b).
End int64.

Module float64.

Local Open Scope Q_scope.

(** A finite IEEE-754 binary64 value, kept as the rational it denotes.
    Every value the package computes is finite: its magnitude is below
    [2 ^ 64]. *)
Definition t : Type := Q.

(** The integer [l] with [2 ^ l <= x < 2 ^ (l + 1)], for a positive [x]. *)
Definition ilog2 (x : Q) : Z :=
  let l := (Z.log2 (Qnum x) - Z.log2 (Zpos (Qden x)))%Z in
  if Qle_bool (2 ^ l) x then l else (l - 1)%Z.

(** The nearest integer, a tie going to the even neighbour. *)
Definition nearestEven (y : Q) : Z :=
  let f := Qfloor y in
  match Qcompare (y - inject_Z f) (1 # 2) with
  | Lt => f
  | Gt => (f + 1)%Z
  | Eq => if Z.even f then f else (f + 1)%Z
  end.

(** The exponent of the unit in the last place of [x]: 53 significant bits,
    and no finer than the subnormal spacing [2 ^ -1074]. *)
Definition ulpExp (x : Q) : Z := Z.max (ilog2 (Qabs x) - 52) (-1074).

(** Rounding a rational to binary64, to nearest, ties to even. *)
Definition round (x : Q) : t :=
  if Qeq_bool x 0 then 0
  else
    let e := ulpExp x in
    inject_Z (nearestEven (x / 2 ^ e)) * 2 ^ e.

(** The conversion [float64(n)] of an integer. *)
Definition ofInt (n : Z) : t := round (inject_Z n).

Definition add (x y : t) : t := round (x + y).
Definition div (x y : t) : t := round (x / y).

(** The constant [1e9], which binary64 holds exactly. *)
Definition c1e9 : t := round 1000000000.

(** The normal range: at or above the smallest normal magnitude. *)
Definition normal (x : Q) : Prop := 2 ^ (-1022) <= Qabs x.

(** The unit roundoff, the largest relative error of one rounding. *)
Definition eps : Q := 2 ^ (-53).

End float64.

(** ** The kernel's binary64

    The same conversions and operations on the primitive floating-point
    numbers of the standard library, to run next to [float64] on concrete
    inputs. *)

Module binary64.

(** The rational a finite primitive float denotes. *)
Definition value (f : PrimFloat.float) : option Q :=
  match FloatOps.Prim2SF f with
  | SpecFloat.S754_zero _ => Some 0%Q
  | SpecFloat.S754_finite s m e =>
      Some ((if s then - (1) else 1) * inject_Z (Zpos m) * 2 ^ e)%Q
  | _ => None
  end.

(** [float64(n)] for an integer of magnitude below [2 ^ 63]. *)
Definition ofInt (n : Z) : PrimFloat.float :=
  if n <? 0
  then PrimFloat.opp (PrimFloat.of_uint63 (Uint63.of_Z (- n)))
  else PrimFloat.of_uint63 (Uint63.of_Z n).

Definition Seconds (d : Z) : PrimFloat.float :=
  PrimFloat.add (ofInt (Z.quot d 1000000000))
                (PrimFloat.div (ofInt (Z.rem d 1000000000)) (ofInt 1000000000)).

Definition Microseconds (d : Z) : PrimFloat.float :=
  ofInt (Z.quot d 1000).

Definition agrees (f : PrimFloat.float) (x : Q) : bool :=
  match value f with
  | Some q => Qeq_bool q x
  | None => false
  end.

End binary64.

(** ** Package [time]

    An instant is counted in nanoseconds on one absolute scale (Go keeps the
    seconds since January 1 of year 1 and the nanoseconds within the second);
    the zero [Time] is instant 0.  A [Duration] is an [int64] count of
    nanoseconds. *)

Module time.

Definition Time : Type := Z.
Definition Duration : Type := Z.

Definition minDuration : Duration := int64.min.
Definition maxDuration : Duration := int64.max.

Definition Nanosecond : Duration := 1.
Definition Microsecond : Duration := 1000 * Nanosecond.
Definition Millisecond : Duration := 1000 * Microsecond.
Definition Second : Duration := 1000 * Millisecond.

(** [t.Sub(u)]: the difference, replaced by the largest or smallest
    [Duration] when it does not fit. *)
Definition Sub (t u : Time) : Duration :=
  if t - u <? minDuration then minDuration
  else if maxDuration <? t - u then maxDuration
  else t - u.

(** [time.Since(t)] is [time.Now().Sub(t)].  The clock is read when the call
    is made; its reading [now] is passed in explicitly. *)
Definition Since (now : Time) (t : Time) : Duration := Sub now t.

Definition Nanoseconds (d : Duration) : Z := d.

(** [d.Seconds()]: the whole seconds and the remaining nanoseconds are
    converted separately and added. *)
Definition Seconds (d : Duration) : float64.t :=
  let sec := int64.div d Second in
  let nsec := int64.rem d Second in
  float64.add (float64.ofInt sec)
              (float64.div (float64.ofInt nsec) float64.c1e9).

Arguments Sub (t u)%_Z_scope.
Arguments Since (now t)%_Z_scope.
Arguments Nanoseconds d%_Z_scope.
Arguments Seconds d%_Z_scope.

End time.

(** ** The elapsed-time helpers (metrics.go, lines 159-167) *)

Definition SinceInMicroseconds (now : time.Time) (start : time.Time) : float64.t :=
  float64.ofInt
    (int64.div (time.Nanoseconds (time.Since now start))
               (time.Nanoseconds time.Microsecond)).

Definition SinceInSeconds (now : time.Time) (start : time.Time) : float64.t :=
  time.Seconds (time.Since now start).

Arguments SinceInMicroseconds (now start)%_Z_scope.
Arguments SinceInSeconds (now start)%_Z_scope.

(** [strings.HasSuffix], used to read the unit off a metric name. *)
Definition hasSuffix (s suffix : string) : bool :=
  let n := String.length s in
  let k := String.length suffix in
  (Nat.leb k n && (substring (n - k) k s =? suffix)%string)%bool.

(** Deciding [NoDup] on strings by running the membership test. *)
Fixpoint nodupb (l : list string) : bool :=
  match l with
  | [] => true
  | x :: l' => negb (existsb (String.eqb x) l') && nodupb l'
  end.

(** ** The elapsed-time contract, as the specification words it

    Three propositions over the helpers, each saying of one call what the
    specification says of every call. *)

(** The microsecond helper returns the whole microseconds of now minus
    start. *)
Definition microseconds_of_elapsed (now start : time.Time) : Prop :=
  (SinceInMicroseconds now start == inject_Z (Z.quot (now - start) 1000))%Q.

(** The seconds helper returns now minus start in seconds, up to the
    rounding of binary64. *)
Definition seconds_of_elapsed (now start : time.Time) : Prop :=
  (Qabs (SinceInSeconds now start - inject_Z (now - start) / 1000000000)
   <= float64.eps * (Qabs (inject_Z (now - start) / 1000000000) + 2))%Q.

(** Both helpers return a negative value. *)
Definition negative_passed_through (now start : time.Time) : Prop :=
  (SinceInMicroseconds now start < 0 /\ SinceInSeconds now start < 0)%Q.

Arguments microseconds_of_elapsed (now start)%_Z_scope.
Arguments seconds_of_elapsed (now start)%_Z_scope.
Arguments negative_passed_through (now start)%_Z_scope.

(** Midnight UTC of January 1, 2026 on the absolute scale:
    63,902,822,400 seconds after the zero [Time]. *)
Definition newYear2026 : time.Time := 63902822400000000000.

(** Durations on which [float64] is run next to the kernel's binary64. *)
Definition sampleDurations : list Z :=
  [0; 1; -1; 999; 1000; -1000; 1500; -1500; 2500000000; -1000000000;
   999999999; -999999999; 1000000001; 123456789123; 5000000005;
   9007199254740993000; 9007199254740995000; -9007199254740993000;
   4611686018427387904; 9223372036854775807; -9223372036854775807;
   - 9223372036854775808; 777777777777777777; -27182818284590452].

(** Going through the members of a list given by enumeration: [H] is the
    membership, [tac] closes the goal for each member. *)
Ltac each_member H tac :=
  cbn in H; repeat (destruct H as [<-|H]; [tac|]); try contradiction.

(** * Properties *)

(** ** The metric definitions *)

Lemma allSeries_length : List.length allSeries = 8%nat.
Proof. reflexivity. Qed.

Lemma allSeries_names : map name allSeries =
  [DockerOperationsLatencyKey; DockerOperationsKey;
   DockerOperationsErrorsKey; DockerOperationsTimeoutKey;
   DeprecatedDockerOperationsLatencyKey; DeprecatedDockerOperationsKey;
   DeprecatedDockerOperationsErrorsKey; DeprecatedDockerOperationsTimeoutKey].
Proof. reflexivity. Qed.

Lemma nodupb_sound (l : list string) : nodupb l = true -> NoDup l.
Proof.
  induction l as [|x l IH]; cbn [nodupb]; intros H.
  - constructor.
  - apply andb_true_iff in H as [Hx Hl].
    constructor; [|now apply IH].
    intros Hin. apply negb_true_iff in Hx.
    assert (existsb (String.eqb x) l = true) as E.
    { apply existsb_exists. exists x. split; [assumption|apply String.eqb_refl]. }
    congruence.
Qed.

Lemma sameIdentity_iff (c d : Registerable) :
  sameIdentity c d = true <-> identity c = identity d.
Proof.
  unfold sameIdentity, identity. rewrite andb_true_iff, !String.eqb_eq.
  split; [intros [-> ->]; reflexivity | intros E; inversion E; auto].
Qed.

Lemma sameIdentity_refl (c : Registerable) : sameIdentity c c = true.
Proof. now apply sameIdentity_iff. Qed.

(** C6: the eight name constants are pairwise distinct, they are the names
    of the eight declared series, all eight sit in the one subsystem, and so
    no two series share their (subsystem, name) identity. *)
Theorem series_identity_unique :
  NoDup allKeys /\
  (forall c, In c allSeries -> In (name c) allKeys) /\
  (forall c, In c allSeries -> subsystem c = kubeletSubsystem) /\
  NoDup (map identity allSeries) /\
  (forall i j c d,
      nth_error allSeries i = Some c -> nth_error allSeries j = Some d ->
      i <> j -> sameIdentity c d = false).
Proof.
  assert (NoDup allKeys) as Hkeys by (apply nodupb_sound; reflexivity).
  assert (NoDup (map identity allSeries)) as Hid.
  { assert (map identity allSeries
            = map (pair kubeletSubsystem) (map name allSeries)) as -> by reflexivity.
    apply Finite.Injective_map_NoDup.
    - intros x y E. now inversion E.
    - apply nodupb_sound. reflexivity. }
  repeat split; trivial.
  - intros c Hc. each_member Hc ltac:(cbn; tauto).
  - intros c Hc. each_member Hc ltac:(reflexivity).
  - intros i j c d Hi Hj Hij.
    destruct (sameIdentity c d) eqn:E; [exfalso|reflexivity].
    apply sameIdentity_iff in E.
    apply Hij.
    rewrite NoDup_nth_error in Hid.
    apply Hid.
    + rewrite length_map. apply nth_error_Some. congruence.
    + rewrite !nth_error_map, Hi, Hj. cbn. congruence.
Qed.

(** C7: the current latency series is a histogram in seconds over the
    predefined bucket boundaries, its deprecated counterpart a summary in
    microseconds; no deprecated series shares a name with a current one, and
    the deprecation marker is on the four deprecated series and on none of
    the four current ones. *)
Theorem latency_series_kinds_and_deprecation :
  (kind DockerOperationsLatency = Histogram /\
   buckets DockerOperationsLatency = Some DefBuckets /\
   hasSuffix (name DockerOperationsLatency) "_seconds" = true /\
   help DockerOperationsLatency =
     "Latency in seconds of Docker operations. Broken down by operation type.") /\
  (kind DeprecatedDockerOperationsLatency = Summary /\
   buckets DeprecatedDockerOperationsLatency = None /\
   hasSuffix (name DeprecatedDockerOperationsLatency) "_microseconds" = true /\
   help DeprecatedDockerOperationsLatency =
     "Latency in microseconds of Docker operations. Broken down by operation type.") /\
  (forall d c, In d deprecatedSeries -> In c currentSeries -> name d <> name c) /\
  Forall (fun d => isDeprecated d = true) deprecatedSeries /\
  Forall (fun c => isDeprecated c = false) currentSeries /\
  List.length deprecatedSeries = 4%nat /\
  List.length currentSeries = 4%nat.
Proof.
  split; [|split; [|split; [|split; [|split]]]].
  - repeat split; reflexivity.
  - repeat split; reflexivity.
  - intros d c Hd Hc.
    each_member Hd ltac:(each_member Hc ltac:(cbn; discriminate)).
  - repeat constructor.
  - repeat constructor.
  - split; reflexivity.
Qed.

(** C9: every one of the eight series is declared in subsystem "kubelet"
    with the single label "operation_type", and each of the four deprecated
    series is marked with version "1.14.0". *)
Theorem series_share_subsystem_label_and_version :
  List.length allSeries = 8%nat /\
  Forall (fun c => subsystem c = "kubelet" /\ labels c = ["operation_type"])
         allSeries /\
  Forall (fun d => deprecatedVersion d = "1.14.0") deprecatedSeries.
Proof.
  split; [reflexivity|]. split; repeat constructor.
Qed.

(** ** The registrar *)

Section Sequencing.

Variables f g g' : Go.

Lemma seq_ext :
  (forall w, g w = g' w) -> forall w, (f ;; g)%go w = (f ;; g')%go w.
Proof.
  intros E w. unfold seq. destruct (f w) as [[|msg] w']; [apply E|reflexivity].
Qed.

Lemma seq_skip_r (w : World) :
  (f ;; (fun w' => (Returned, w')))%go w = f w.
Proof. unfold seq. now destruct (f w) as [[|msg] w']. Qed.

Lemma Once_Do_ext :
  (forall w, g w = g' w) -> forall w, Once_Do g w = Once_Do g' w.
Proof. intros E w. unfold Once_Do. now rewrite E. Qed.

(** With [done] set, [Do] returns at once and touches nothing. *)
Lemma Once_Do_fired (w : World) :
  sync.done (registerMetrics w) = true -> Once_Do f w = (Returned, w).
Proof. intros H. unfold Once_Do. now rewrite H. Qed.

End Sequencing.

(** The body of [Register] is the installation of [allSeries], in order. *)
Lemma Register_unfold (w : World) :
  Register w = Once_Do (MustRegisterAll allSeries) w.
Proof.
  unfold Register. apply Once_Do_ext. clear w. intros w.
  cbn [allSeries currentSeries deprecatedSeries app MustRegisterAll].
  repeat (apply seq_ext; clear w; intros w).
  symmetry. apply seq_skip_r.
Qed.

Lemma Register_fired (w : World) :
  sync.done (registerMetrics w) = true -> Register w = (Returned, w).
Proof. intros H. rewrite Register_unfold. now apply Once_Do_fired. Qed.

Lemma collides_app (c : Registerable) (r r' : legacyregistry.Registry) :
  legacyregistry.collides c (r ++ r')
  = (legacyregistry.collides c r || legacyregistry.collides c r')%bool.
Proof. apply existsb_app. Qed.

Lemma collides_In (c : Registerable) (r : legacyregistry.Registry) :
  legacyregistry.collides c r = true <-> In (identity c) (map identity r).
Proof.
  unfold legacyregistry.collides. rewrite existsb_exists, in_map_iff.
  split; intros [d [H1 H2]]; exists d.
  - apply sameIdentity_iff in H2. auto.
  - split; [tauto|]. apply sameIdentity_iff. now destruct H1.
Qed.

Lemma fresh_cons_inv c cs r :
  fresh (c :: cs) r -> legacyregistry.collides c r = false /\ fresh cs r.
Proof.
  intros H. split; [apply H; now left|]. intros d Hd. apply H. now right.
Qed.

Lemma fresh_after_install c cs r :
  NoDup (map identity (c :: cs)) -> fresh cs r -> fresh cs (r ++ [c]).
Proof.
  intros Hnd Hf d Hd. rewrite collides_app, (Hf d Hd). cbn.
  rewrite orb_false_r.
  destruct (sameIdentity d c) eqn:E; [exfalso|reflexivity].
  apply sameIdentity_iff in E. cbn in Hnd. inversion Hnd as [|? ? Hnotin _]; subst.
  apply Hnotin. rewrite <- E. now apply in_map.
Qed.

(** Installing collectors none of which is rejected appends them all. *)
Lemma MustRegisterAll_fresh (cs : list Registerable) :
  forall w,
    NoDup (map identity cs) -> fresh cs (defaultRegistry w) ->
    MustRegisterAll cs w
    = (Returned, mkWorld (registerMetrics w) (defaultRegistry w ++ cs)).
Proof.
  induction cs as [|c cs IH]; intros [o r] Hnd Hf; cbn [MustRegisterAll].
  - cbn. now rewrite app_nil_r.
  - destruct (fresh_cons_inv _ _ _ Hf) as [Hc Hcs].
    unfold seq, MustRegister at 1, legacyregistry.Register.
    cbn [defaultRegistry registerMetrics] in *. rewrite Hc.
    rewrite IH; cbn [defaultRegistry registerMetrics].
    + now rewrite <- app_assoc.
    + cbn in Hnd. now inversion Hnd.
    + now apply fresh_after_install.
Qed.

(** The first rejected collector stops the installation where it stands. *)
Lemma MustRegisterAll_rejected (pre : list Registerable) :
  forall c post w,
    NoDup (map identity pre) -> fresh pre (defaultRegistry w) ->
    legacyregistry.collides c (defaultRegistry w ++ pre) = true ->
    MustRegisterAll (pre ++ c :: post) w
    = (Panicked "duplicate metrics collector registration attempted",
       mkWorld (registerMetrics w) (defaultRegistry w ++ pre)).
Proof.
  induction pre as [|p pre IH]; intros c post [o r] Hnd Hf Hc;
    cbn [MustRegisterAll app defaultRegistry registerMetrics] in *.
  - rewrite app_nil_r in *.
    unfold seq, MustRegister, legacyregistry.Register.
    cbn [defaultRegistry registerMetrics]. now rewrite Hc.
  - destruct (fresh_cons_inv _ _ _ Hf) as [Hp Hpre].
    unfold seq, MustRegister at 1, legacyregistry.Register.
    cbn [defaultRegistry registerMetrics]. rewrite Hp.
    rewrite IH; cbn [defaultRegistry registerMetrics].
    + now rewrite <- app_assoc.
    + cbn in Hnd. now inversion Hnd.
    + now apply fresh_after_install.
    + now rewrite <- app_assoc.
Qed.

Lemma first_collision (cs : list Registerable) (r : legacyregistry.Registry) :
  (exists c, In c cs /\ legacyregistry.collides c r = true) ->
  exists pre c post,
    cs = pre ++ c :: post /\ fresh pre r /\
    legacyregistry.collides c r = true.
Proof.
  induction cs as [|d cs IH]; intros [c [Hin Hc]]; [contradiction|].
  destruct (legacyregistry.collides d r) eqn:Ed.
  - exists [], d, cs. repeat split; trivial. intros x [].
  - destruct IH as [pre [c' [post [E [Hf Hc']]]]].
    { exists c. split; [|assumption]. destruct Hin as [->|]; [congruence|assumption]. }
    exists (d :: pre), c', post. subst cs. repeat split; trivial.
    intros x [<-|Hx]; [assumption|now apply Hf].
Qed.

Lemma NoDup_app_l {A} (l l' : list A) : NoDup (l ++ l') -> NoDup l.
Proof.
  induction l as [|x l IH]; intros H; [constructor|].
  cbn in H. inversion H as [|? ? Hx Hl]; subst. constructor.
  - intros Hin. apply Hx. apply in_or_app. now left.
  - now apply IH.
Qed.

Lemma allSeries_NoDup : NoDup (map identity allSeries).
Proof.
  assert (map identity allSeries
          = map (pair kubeletSubsystem) (map name allSeries)) as -> by reflexivity.
  apply Finite.Injective_map_NoDup.
  - intros x y E. now inversion E.
  - apply nodupb_sound. reflexivity.
Qed.

Lemma installed_app c r r' :
  installed c (r ++ r') = (installed c r + installed c r')%nat.
Proof. unfold installed. now rewrite filter_app, length_app. Qed.

Lemma installed_fresh c r :
  legacyregistry.collides c r = false -> installed c r = 0%nat.
Proof.
  unfold installed, legacyregistry.collides. induction r as [|d r IH]; cbn; [reflexivity|].
  destruct (sameIdentity c d); cbn; [discriminate|exact IH].
Qed.

Lemma installed_allSeries c : In c allSeries -> installed c allSeries = 1%nat.
Proof.
  intros H. each_member H ltac:(reflexivity).
Qed.

Lemma RegisterTimes_fired (n : nat) (w : World) :
  sync.done (registerMetrics w) = true ->
  RegisterTimes n w = (repeat Returned n, w).
Proof.
  intros H. induction n as [|n IH]; [reflexivity|].
  cbn [RegisterTimes repeat]. now rewrite (Register_fired w H), IH.
Qed.

(** C1: from the start of a process whose registry holds none of the eight
    identities, [n >= 1] calls of [Register] all return normally; the first
    call installs the eight series, every later call leaves the state as it
    found it, and each series ends up installed exactly once.  Whatever the
    state, a call that follows a completed call changes nothing. *)
Theorem Register_idempotent (r0 : legacyregistry.Registry) (n : nat) :
  fresh allSeries r0 -> (1 <= n)%nat ->
  let w1 := mkWorld (sync.mkOnce true) (r0 ++ allSeries) in
  Register (processStart r0) = (Returned, w1) /\
  Register w1 = (Returned, w1) /\
  RegisterTimes n (processStart r0) = (repeat Returned n, w1) /\
  (forall c, In c allSeries -> installed c (defaultRegistry w1) = 1%nat) /\
  (forall c, installed c (defaultRegistry w1)
             = (installed c r0 + installed c allSeries)%nat) /\
  (forall w, let w' := snd (Register w) in Register w' = (Returned, w')).
Proof.
  intros Hf Hn w1.
  assert (Register (processStart r0) = (Returned, w1)) as H1.
  { rewrite Register_unfold. unfold Once_Do, processStart. cbn [registerMetrics sync.done sync.zero].
    rewrite MustRegisterAll_fresh; [reflexivity|apply allSeries_NoDup|exact Hf]. }
  assert (Register w1 = (Returned, w1)) as H2 by (now apply Register_fired).
  repeat split; trivial.
  - destruct n as [|n]; [lia|]. cbn [RegisterTimes repeat].
    rewrite H1, RegisterTimes_fired; reflexivity.
  - intros c Hc. cbn [w1 defaultRegistry].
    rewrite installed_app, (installed_fresh c r0 (Hf c Hc)), installed_allSeries; trivial.
  - intros c. apply installed_app.
  - intros w w'. apply Register_fired. subst w'.
    destruct (sync.done (registerMetrics w)) eqn:E.
    + now rewrite (Register_fired w E).
    + rewrite Register_unfold. unfold Once_Do. rewrite E.
      now destruct (MustRegisterAll allSeries w).
Qed.

(** C1, witness: three calls over an empty registry. *)
Lemma Register_idempotent_witness :
  fresh allSeries [] /\ (1 <= 3)%nat /\
  RegisterTimes 3 (processStart [])
  = ([Returned; Returned; Returned], mkWorld (sync.mkOnce true) allSeries).
Proof.
  assert (fresh allSeries []) as Hf by (intros c _; reflexivity).
  assert (1 <= 3)%nat as Hn by lia.
  split; [exact Hf|]. split; [exact Hn|].
  exact (proj1 (proj2 (proj2 (Register_idempotent [] 3 Hf Hn)))).
Defined.

(** C5: when the registry rejects one of the eight series, [Register]
    panics at that series: the series before it stay installed, the rejected
    one and those after it are not, nothing is caught or tried again, and a
    later call finds [done] set and does nothing. *)
Theorem Register_rejection_is_fatal (r : legacyregistry.Registry) :
  (exists c, In c allSeries /\ legacyregistry.collides c r = true) ->
  exists pre c post msg,
    allSeries = pre ++ c :: post /\
    fresh pre r /\
    legacyregistry.Register c (r ++ pre) = None /\
    let w' := mkWorld (sync.mkOnce true) (r ++ pre) in
    Register (processStart r) = (Panicked msg, w') /\
    Register w' = (Returned, w').
Proof.
  intros H. destruct (first_collision _ _ H) as [pre [c [post [E [Hf Hc]]]]].
  exists pre, c, post, "duplicate metrics collector registration attempted".
  assert (legacyregistry.collides c (r ++ pre) = true) as Hc'
    by (rewrite collides_app, Hc; reflexivity).
  split; [exact E|]. split; [exact Hf|]. split; [|split].
  - unfold legacyregistry.Register. now rewrite Hc'.
  - rewrite Register_unfold. unfold Once_Do, processStart.
    cbn [registerMetrics sync.done sync.zero]. rewrite E.
    rewrite MustRegisterAll_rejected; trivial.
    apply NoDup_app_l with (l' := map identity (c :: post)).
    rewrite <- map_app, <- E. apply allSeries_NoDup.
  - now apply Register_fired.
Qed.

(** C5, witness: a registry in which another package has already installed
    a collector under the identity of [DockerOperations]. *)
Lemma Register_rejection_is_fatal_witness :
  legacyregistry.collides DockerOperations [DockerOperations] = true /\
  exists pre c post msg,
    allSeries = pre ++ c :: post /\
    fresh pre [DockerOperations] /\
    legacyregistry.Register c ([DockerOperations] ++ pre) = None /\
    let w' := mkWorld (sync.mkOnce true) ([DockerOperations] ++ pre) in
    Register (processStart [DockerOperations]) = (Panicked msg, w') /\
    Register w' = (Returned, w').
Proof.
  split; [reflexivity|].
  apply (Register_rejection_is_fatal [DockerOperations]).
  exists DockerOperations. split; [cbn; tauto|reflexivity].
Defined.

(** ** binary64 rounding *)

Import float64.
Local Open Scope Q_scope.

Lemma nearestEven_error (y : Q) :
  inject_Z (nearestEven y) - y <= 1 # 2 /\ y - inject_Z (nearestEven y) <= 1 # 2.
Proof.
  unfold nearestEven.
  pose proof (Qfloor_le y) as Hlo. pose proof (Qlt_floor y) as Hhi.
  rewrite inject_Z_plus in Hhi. change (inject_Z 1) with 1 in Hhi.
  destruct (Qcompare (y - inject_Z (Qfloor y)) (1 # 2)) eqn:E.
  - apply Qeq_alt in E. destruct (Z.even (Qfloor y)).
    + lra.
    + rewrite inject_Z_plus. change (inject_Z 1) with 1. lra.
  - apply Qlt_alt in E. lra.
  - apply Qgt_alt in E. rewrite inject_Z_plus. change (inject_Z 1) with 1. lra.
Qed.

Lemma nearestEven_integer (y : Q) (k : Z) : y == inject_Z k -> nearestEven y = k.
Proof.
  intros E. unfold nearestEven.
  assert (Qfloor y = k) as -> by (rewrite E; apply Qfloor_Z).
  assert (Qcompare (y - inject_Z k) (1 # 2) = Lt) as ->; [|reflexivity].
  apply (proj1 (Qlt_alt _ _)). lra.
Qed.

Lemma two_pow_pos (k : Z) : 0 < 2 ^ k.
Proof. apply Qpower_0_lt. reflexivity. Qed.

Lemma two_pow_plus (a b : Z) : 2 ^ (a + b) == 2 ^ a * 2 ^ b.
Proof. apply Qpower_plus. discriminate. Qed.

Lemma two_pow_succ (a : Z) : 2 ^ (a + 1) == 2 * 2 ^ a.
Proof. rewrite two_pow_plus. change (2 ^ 1) with 2. ring. Qed.

Lemma two_pow_succ' (a : Z) : 2 ^ Z.succ a == 2 * 2 ^ a.
Proof. unfold Z.succ. apply two_pow_succ. Qed.

Lemma two_pow_pred (a : Z) : 2 * 2 ^ (a - 1) == 2 ^ a.
Proof. rewrite <- two_pow_succ. now replace (a - 1 + 1)%Z with a by lia. Qed.

Lemma two_pow_inject (a : Z) : (0 <= a)%Z -> inject_Z (2 ^ a) == 2 ^ a.
Proof. intros H. now rewrite Zpower_Qpower. Qed.

Lemma two_pow_le (a b : Z) : (a <= b)%Z -> 2 ^ a <= 2 ^ b.
Proof.
  intros H. replace b with (a + (b - a))%Z by lia. rewrite two_pow_plus.
  assert (1 <= 2 ^ (b - a)).
  { rewrite <- two_pow_inject by lia. change 1 with (inject_Z 1).
    rewrite <- Zle_Qle. pose proof (Z.pow_pos_nonneg 2 (b - a)). lia. }
  pose proof (two_pow_pos a). nra.
Qed.

Lemma two_pow_lt_inv (a b : Z) : 2 ^ a < 2 ^ b -> (a < b)%Z.
Proof.
  intros H. destruct (Z.lt_ge_cases a b) as [|Hge]; [assumption|exfalso].
  apply two_pow_le in Hge. lra.
Qed.

Lemma ilog2_spec (x : Q) :
  0 < x -> 2 ^ ilog2 x <= x /\ x < 2 ^ (ilog2 x + 1).
Proof.
  intros Hx. destruct x as [n d].
  assert (0 < n)%Z as Hn by (unfold Qlt in Hx; cbn in Hx; lia).
  unfold ilog2. cbn [Qnum Qden].
  set (a := Z.log2 n). set (b := Z.log2 (Zpos d)).
  pose proof (Z.log2_nonneg n) as Ha0. pose proof (Z.log2_nonneg (Zpos d)) as Hb0.
  destruct (Z.log2_spec n Hn) as [Ha1 Ha2].
  destruct (Z.log2_spec (Zpos d) eq_refl) as [Hb1 Hb2].
  fold a in Ha0, Ha1, Ha2. fold b in Hb0, Hb1, Hb2.
  rewrite Zle_Qle in Ha1, Hb1. rewrite Zlt_Qlt in Ha2, Hb2.
  rewrite two_pow_inject in Ha1, Ha2, Hb1, Hb2 by lia.
  rewrite two_pow_succ' in Ha2, Hb2.
  set (N := inject_Z n) in *. set (D := inject_Z (Zpos d)) in *.
  assert (n # d == N / D) as EX by apply Qmake_Qdiv.
  assert (0 < D) as HD by (pose proof (two_pow_pos b); lra).
  assert ((n # d) * D == N) as EM by (rewrite EX; field; lra).
  pose proof (two_pow_pos a) as HP. pose proof (two_pow_pos b) as HR.
  pose proof (two_pow_pos (a - b)) as HL.
  assert (2 ^ (a - b) * 2 ^ b == 2 ^ a) as ELR.
  { rewrite <- two_pow_plus. now replace (a - b + b)%Z with a by lia. }
  set (X := n # d) in *. set (P := 2 ^ a) in *. set (R := 2 ^ b) in *.
  set (L := 2 ^ (a - b)) in *.
  destruct (Qle_bool L X) eqn:E.
  - apply Qle_bool_iff in E. split; [exact E|].
    rewrite two_pow_succ. fold L.
    apply Qnot_le_lt. intros C.
    assert (0 <= (X - 2 * L) * D) by (apply Qmult_le_0_compat; lra).
    assert (0 <= L * (D - R)) by (apply Qmult_le_0_compat; lra).
    lra.
  - assert (X < L) as E'.
    { apply Qnot_le_lt. intros C. apply Qle_bool_iff in C. congruence. }
    replace (a - b - 1 + 1)%Z with (a - b)%Z by lia. fold L.
    split; [|exact E'].
    pose proof (two_pow_pred (a - b)) as Epred. fold L in Epred.
    set (L' := 2 ^ (a - b - 1)) in *.
    apply Qnot_lt_le. intros C.
    assert (0 <= (L' - X) * D) by (apply Qmult_le_0_compat; lra).
    assert (0 < L' * (2 * R - D)) by (apply Qmult_lt_0_compat; lra).
    assert (L * R == 2 * L' * R) by (rewrite <- Epred; ring).
    lra.
Qed.

Lemma ilog2_ge (x : Q) (k : Z) : 0 < x -> 2 ^ k <= x -> (k <= ilog2 x)%Z.
Proof.
  intros Hx Hk. destruct (ilog2_spec x Hx) as [_ Hhi].
  assert (2 ^ k < 2 ^ (ilog2 x + 1)) as H by lra.
  apply two_pow_lt_inv in H. lia.
Qed.

Lemma ilog2_lt (x : Q) (k : Z) : 0 < x -> x < 2 ^ k -> (ilog2 x < k)%Z.
Proof.
  intros Hx Hk. destruct (ilog2_spec x Hx) as [Hlo _].
  apply two_pow_lt_inv. lra.
Qed.

Lemma normal_abs_pos (x : Q) : normal x -> 0 < Qabs x.
Proof. unfold normal. pose proof (two_pow_pos (-1022)). lra. Qed.

Lemma normal_nonzero (x : Q) : normal x -> Qeq_bool x 0 = false.
Proof.
  intros H. apply normal_abs_pos in H.
  destruct (Qeq_bool x 0) eqn:E; [exfalso|reflexivity].
  apply Qeq_bool_iff in E. rewrite E in H. cbn in H. lra.
Qed.

Lemma ulpExp_normal (x : Q) : normal x -> ulpExp x = (ilog2 (Qabs x) - 52)%Z.
Proof.
  intros H. unfold ulpExp.
  pose proof (ilog2_ge (Qabs x) (-1022) (normal_abs_pos x H) H). lia.
Qed.

(** What rounding does to a value in the normal range. *)
Lemma round_normal (x : Q) :
  normal x ->
  exists (m : Z) (e : Z),
    round x == inject_Z m * 2 ^ e /\
    2 ^ 52 * 2 ^ e <= Qabs x /\
    Qabs (inject_Z m * 2 ^ e - x) <= (1 # 2) * 2 ^ e.
Proof.
  intros H. unfold round. rewrite (normal_nonzero x H).
  rewrite (ulpExp_normal x H).
  set (e := (ilog2 (Qabs x) - 52)%Z).
  exists (nearestEven (x / 2 ^ e)), e.
  pose proof (two_pow_pos e) as HE.
  split; [reflexivity|]. split.
  - rewrite <- two_pow_plus. replace (52 + e)%Z with (ilog2 (Qabs x)) by (unfold e; lia).
    apply ilog2_spec. now apply normal_abs_pos.
  - destruct (nearestEven_error (x / 2 ^ e)) as [H1 H2].
    set (m := inject_Z (nearestEven (x / 2 ^ e))) in *.
    assert (x == (x / 2 ^ e) * 2 ^ e) as Ex by (field; lra).
    set (y := x / 2 ^ e) in *. set (E := 2 ^ e) in *.
    apply Qabs_Qle_condition.
    assert (0 <= ((1 # 2) - (m - y)) * E) by (apply Qmult_le_0_compat; lra).
    assert (0 <= ((1 # 2) - (y - m)) * E) by (apply Qmult_le_0_compat; lra).
    split; lra.
Qed.

Lemma round_error (x : Q) :
  normal x -> Qabs (round x - x) <= eps * Qabs x.
Proof.
  intros H. destruct (round_normal x H) as [m [e [Er [Hlo Herr]]]].
  rewrite Er.
  assert (eps * 2 ^ 52 == 1 # 2) as Eu by reflexivity.
  pose proof (two_pow_pos e) as HE.
  set (E := 2 ^ e) in *. set (a := Qabs x) in *.
  assert ((1 # 2) * E <= eps * a); [|lra].
  assert (eps * (2 ^ 52 * E) <= eps * a) as H1.
  { apply Qmult_le_l; [reflexivity|exact Hlo]. }
  assert (eps * (2 ^ 52 * E) == (1 # 2) * E) as <-; [|exact H1].
  rewrite Qmult_assoc, Eu. reflexivity.
Qed.

Lemma round_zero (x : Q) : x == 0 -> round x = 0.
Proof.
  intros E. unfold round.
  now rewrite (proj2 (Qeq_bool_iff x 0) E).
Qed.

Lemma round_error_or_zero (x : Q) :
  x == 0 \/ normal x -> Qabs (round x - x) <= eps * Qabs x.
Proof.
  intros [E|H]; [|now apply round_error].
  rewrite (round_zero x E), E. cbn. discriminate.
Qed.

(** A value that is a multiple of its own unit in the last place is kept. *)
Lemma round_representable (x : Q) (k : Z) :
  ~ x == 0 -> x == inject_Z k * 2 ^ ulpExp x -> round x == x.
Proof.
  intros Hx E. unfold round.
  destruct (Qeq_bool x 0) eqn:E0; [apply Qeq_bool_iff in E0; contradiction|].
  pose proof (two_pow_pos (ulpExp x)) as HE.
  rewrite (nearestEven_integer (x / 2 ^ ulpExp x) k).
  - symmetry. exact E.
  - rewrite E at 1. field. lra.
Qed.

Lemma Qabs_inject_Z (z : Z) : Qabs (inject_Z z) = inject_Z (Z.abs z).
Proof. reflexivity. Qed.

Lemma inject_Z_nonzero (z : Z) : z <> 0%Z -> ~ inject_Z z == 0.
Proof. intros H E. apply H. unfold Qeq in E. cbn in E. lia. Qed.

Lemma inject_Z_normal (z : Z) : z <> 0%Z -> normal (inject_Z z).
Proof.
  intros H. unfold normal. rewrite Qabs_inject_Z.
  apply Qle_trans with 1; [discriminate|].
  change 1 with (inject_Z 1). rewrite <- Zle_Qle. lia.
Qed.

(** Converting an integer: exact while the unit in the last place is at most
    one, and a multiple of that unit above. *)
Lemma round_integer (z : Z) :
  z <> 0%Z ->
  let e := ulpExp (inject_Z z) in
  ((e <= 0)%Z -> round (inject_Z z) == inject_Z z) /\
  ((0 <= e)%Z -> exists m : Z, round (inject_Z z) == inject_Z (m * 2 ^ e)).
Proof.
  intros Hz e. split.
  - intros He. apply round_representable with (k := (z * 2 ^ (- e))%Z).
    + now apply inject_Z_nonzero.
    + fold e. rewrite inject_Z_mult, two_pow_inject by lia.
      rewrite <- Qmult_assoc, <- two_pow_plus.
      replace (- e + e)%Z with 0%Z by lia. change (2 ^ 0) with 1. ring.
  - intros He. unfold round.
    destruct (Qeq_bool (inject_Z z) 0) eqn:E0.
    + apply Qeq_bool_iff in E0. now apply inject_Z_nonzero in E0.
    + fold e. exists (nearestEven (inject_Z z / 2 ^ e)).
      now rewrite inject_Z_mult, two_pow_inject.
Qed.

Lemma ulpExp_small_integer (z : Z) :
  z <> 0%Z -> (Z.abs z < 2 ^ 53)%Z -> (ulpExp (inject_Z z) <= 0)%Z.
Proof.
  intros Hz Hlt. rewrite ulpExp_normal by now apply inject_Z_normal.
  assert (ilog2 (Qabs (inject_Z z)) < 53)%Z; [|lia].
  apply ilog2_lt.
  - apply normal_abs_pos. now apply inject_Z_normal.
  - rewrite Qabs_inject_Z. rewrite <- two_pow_inject by lia.
    now rewrite <- Zlt_Qlt.
Qed.

(** [float64(n)] is exact for every integer of magnitude up to [2 ^ 53]. *)
Lemma ofInt_exact (z : Z) :
  (Z.abs z <= 2 ^ 53)%Z -> ofInt z == inject_Z z.
Proof.
  intros H. unfold ofInt.
  destruct (Z.eq_dec z 0) as [->|Hz]; [reflexivity|].
  destruct (Z.eq_dec (Z.abs z) (2 ^ 53)) as [E|E].
  - destruct (Z.abs_eq_or_opp z) as [E'|E']; rewrite E' in E.
    + subst z. vm_compute. reflexivity.
    + assert (z = (- 2 ^ 53)%Z) as -> by lia. vm_compute. reflexivity.
  - apply (round_integer z Hz). apply ulpExp_small_integer; [assumption|lia].
Qed.

(** [float64(n)] is always a whole number. *)
Lemma ofInt_integral (z : Z) : exists k : Z, ofInt z == inject_Z k.
Proof.
  unfold ofInt. destruct (Z.eq_dec z 0) as [->|Hz]; [now exists 0%Z|].
  destruct (Z.le_ge_cases (ulpExp (inject_Z z)) 0) as [He|He].
  - exists z. now apply (round_integer z Hz).
  - destruct (proj2 (round_integer z Hz) He) as [m Em]. eauto.
Qed.

(** ** 64-bit integers and durations *)

Local Open Scope Z_scope.

Lemma wrap_inRange (z : Z) : int64.inRange z -> int64.wrap z = z.
Proof.
  unfold int64.inRange, int64.wrap, int64.min, int64.max. intros H.
  rewrite Z.mod_small; lia.
Qed.

Lemma int64_div_exact (d c : Z) :
  int64.inRange d -> 0 < c -> int64.div d c = Z.quot d c.
Proof.
  intros Hd Hc. unfold int64.div. apply wrap_inRange.
  unfold int64.inRange, int64.min, int64.max in *.
  Z.quot_rem_to_equations. nia.
Qed.

Lemma int64_rem_exact (d c : Z) :
  int64.inRange d -> 0 < c <= int64.max -> int64.rem d c = Z.rem d c.
Proof.
  intros Hd Hc. unfold int64.rem. apply wrap_inRange.
  unfold int64.inRange, int64.min, int64.max in *.
  Z.quot_rem_to_equations. lia.
Qed.

Lemma Sub_exact (t u : time.Time) :
  int64.inRange (t - u) -> time.Sub t u = t - u.
Proof.
  unfold int64.inRange, time.Sub, time.minDuration, time.maxDuration. intros H.
  destruct (Z.ltb_spec (t - u) int64.min); [lia|].
  destruct (Z.ltb_spec int64.max (t - u)); [lia|reflexivity].
Qed.

Lemma Sub_inRange (t u : time.Time) : int64.inRange (time.Sub t u).
Proof.
  unfold int64.inRange, time.Sub, time.minDuration, time.maxDuration.
  destruct (Z.ltb_spec (t - u) int64.min); [unfold int64.min, int64.max; lia|].
  destruct (Z.ltb_spec int64.max (t - u)); [unfold int64.min, int64.max; lia|lia].
Qed.

Lemma Sub_negative (t u : time.Time) : t < u -> time.Sub t u < 0.
Proof.
  unfold time.Sub, time.minDuration, time.maxDuration. intros H.
  destruct (Z.ltb_spec (t - u) int64.min); [reflexivity|].
  destruct (Z.ltb_spec int64.max (t - u)); [unfold int64.max in *; lia|lia].
Qed.

Lemma Sub_saturates_high (t u : time.Time) :
  int64.max < t - u -> time.Sub t u = time.maxDuration.
Proof.
  unfold time.Sub, time.minDuration, time.maxDuration. intros H.
  destruct (Z.ltb_spec (t - u) int64.min); [unfold int64.min, int64.max in *; lia|].
  destruct (Z.ltb_spec int64.max (t - u)); [reflexivity|lia].
Qed.

Lemma Sub_saturates_low (t u : time.Time) :
  t - u < int64.min -> time.Sub t u = time.minDuration.
Proof.
  unfold time.Sub, time.minDuration, time.maxDuration. intros H.
  destruct (Z.ltb_spec (t - u) int64.min); [reflexivity|lia].
Qed.

Lemma SinceInMicroseconds_unfold (now start : time.Time) :
  SinceInMicroseconds now start
  = float64.ofInt (Z.quot (time.Since now start) 1000).
Proof.
  unfold SinceInMicroseconds, time.Nanoseconds.
  change time.Microsecond with 1000.
  rewrite int64_div_exact; [reflexivity|apply Sub_inRange|lia].
Qed.

Lemma Seconds_unfold (d : time.Duration) :
  int64.inRange d ->
  time.Seconds d
  = float64.add (float64.ofInt (Z.quot d 1000000000))
      (float64.div (float64.ofInt (Z.rem d 1000000000)) float64.c1e9).
Proof.
  intros H. unfold time.Seconds. change time.Second with 1000000000.
  rewrite int64_div_exact, int64_rem_exact
    by (assumption || (unfold int64.max; lia)). reflexivity.
Qed.

(** ** [Seconds] and the integer conversion *)

Local Open Scope Q_scope.

Lemma eps_value : eps == 1 # 9007199254740992.
Proof. reflexivity. Qed.

Lemma c1e9_exact : c1e9 == 1000000000.
Proof. vm_compute. reflexivity. Qed.

Lemma normal_ge (x c : Q) : 2 ^ (-1022) <= c -> c <= x -> normal x.
Proof.
  intros Hc Hx. unfold normal. pose proof (Qle_Qabs x). lra.
Qed.

Lemma normal_le (x c : Q) : 2 ^ (-1022) <= c -> x <= - c -> normal x.
Proof.
  intros Hc Hx. unfold normal. pose proof (Qle_Qabs (- x)) as H.
  rewrite Qabs_opp in H. lra.
Qed.

Lemma tiny_le_nano : 2 ^ (-1022) <= 1 # 2000000000.
Proof. vm_compute. discriminate. Qed.

Lemma tiny_le_one : 2 ^ (-1022) <= 1.
Proof. vm_compute. discriminate. Qed.

(** Rounding a non-negative value: the result, within the relative error. *)
Lemma round_nonneg_bounds (x : Q) :
  0 <= x -> x == 0 \/ normal x ->
  x - eps * x <= round x /\ round x <= x + eps * x.
Proof.
  intros H0 Hn. pose proof (round_error_or_zero x Hn) as He.
  rewrite (Qabs_pos x H0) in He. apply Qabs_Qle_condition in He. lra.
Qed.

Lemma round_nonpos_bounds (x : Q) :
  x <= 0 -> x == 0 \/ normal x ->
  x + eps * x <= round x /\ round x <= x - eps * x.
Proof.
  intros H0 Hn. pose proof (round_error_or_zero x Hn) as He.
  rewrite (Qabs_neg x H0) in He. apply Qabs_Qle_condition in He. lra.
Qed.

Lemma div_1e9 (x : Q) : x / 1000000000 == x * (1 # 1000000000).
Proof. reflexivity. Qed.

(** The quotient and remainder [Seconds] works with, as rationals. *)
Lemma split_seconds (d : Z) :
  int64.inRange d ->
  let sec := Z.quot d 1000000000 in
  let nsec := Z.rem d 1000000000 in
  let s := inject_Z sec in
  let a := inject_Z nsec / 1000000000 in
  ofInt sec == s /\ ofInt nsec / c1e9 == a /\
  inject_Z d / 1000000000 == s + a /\
  (s == 0 \/ 1 <= s \/ s <= - (1)) /\
  (a == 0 \/ (1 # 1000000000) <= a \/ a <= - (1 # 1000000000)) /\
  - (1) < a /\ a < 1 /\
  ((0 <= d)%Z -> 0 <= s /\ 0 <= a) /\
  ((d < 0)%Z -> s <= 0 /\ a <= 0 /\ (s <= - (1) \/ a <= - (1 # 1000000000))).
Proof.
  intros Hd sec nsec s a.
  assert (d = 1000000000 * sec + nsec)%Z as Ed by apply Z.quot_rem'.
  assert (Z.abs nsec < 1000000000)%Z as Hn
    by (subst nsec; Z.quot_rem_to_equations; lia).
  assert (Z.abs sec <= 2 ^ 53)%Z as Hs.
  { unfold int64.inRange, int64.min, int64.max in Hd.
    subst sec; Z.quot_rem_to_equations; lia. }
  assert (forall z : Z, (1 <= z)%Z -> 1 <= inject_Z z) as Hge.
  { intros z Hz1. change 1 with (inject_Z 1). now rewrite <- Zle_Qle. }
  assert (forall z : Z, (z <= -1)%Z -> inject_Z z <= - (1)) as Hle.
  { intros z Hz1. change (- (1)) with (inject_Z (-1)). now rewrite <- Zle_Qle. }
  assert (forall z : Z, (0 <= z)%Z -> 0 <= inject_Z z) as Hpos.
  { intros z Hz1. change 0 with (inject_Z 0). now rewrite <- Zle_Qle. }
  assert (forall z : Z, (z <= 0)%Z -> inject_Z z <= 0) as Hneg.
  { intros z Hz1. change 0 with (inject_Z 0). now rewrite <- Zle_Qle. }
  assert (inject_Z (Z.abs nsec) < 1000000000) as Hn'.
  { change 1000000000 with (inject_Z 1000000000). now rewrite <- Zlt_Qlt. }
  assert (- (1000000000) < inject_Z nsec /\ inject_Z nsec < 1000000000) as [Hn1 Hn2].
  { change 1000000000 with (inject_Z 1000000000).
    change (- inject_Z 1000000000) with (inject_Z (-1000000000)).
    rewrite <- !Zlt_Qlt. lia. }
  split; [apply ofInt_exact; exact Hs|].
  split.
  { unfold a. rewrite c1e9_exact, ofInt_exact; [reflexivity|lia]. }
  split.
  { unfold s, a. rewrite Ed at 1. rewrite inject_Z_plus, inject_Z_mult. field. }
  split.
  { unfold s. destruct (Z.eq_dec sec 0) as [->|]; [left; reflexivity|right].
    destruct (Z.lt_ge_cases sec 0); [right; apply Hle|left; apply Hge]; lia. }
  split.
  { unfold a. destruct (Z.eq_dec nsec 0) as [->|]; [left; reflexivity|right].
    destruct (Z.lt_ge_cases nsec 0).
    - right. assert (inject_Z nsec <= - (1)) by (apply Hle; lia). rewrite div_1e9; lra.
    - left. assert (1 <= inject_Z nsec) by (apply Hge; lia). rewrite div_1e9; lra. }
  split; [unfold a; rewrite div_1e9; lra|]. split; [unfold a; rewrite div_1e9; lra|].
  split.
  - intros H0. split.
    + apply Hpos. subst sec. Z.quot_rem_to_equations. lia.
    + assert (0 <= inject_Z nsec); [|unfold a; rewrite div_1e9; lra].
      apply Hpos. subst nsec. Z.quot_rem_to_equations. lia.
  - intros H0.
    assert (sec <= 0)%Z as Hs0 by (subst sec; Z.quot_rem_to_equations; lia).
    assert (nsec <= 0)%Z as Hn0 by (subst nsec; Z.quot_rem_to_equations; lia).
    pose proof (Hneg _ Hs0). pose proof (Hneg _ Hn0).
    split; [assumption|]. split; [unfold a; rewrite div_1e9; lra|].
    destruct (Z.eq_dec sec 0) as [E0|].
    + right. assert (nsec <= -1)%Z as Hn3 by lia.
      pose proof (Hle _ Hn3). unfold a. rewrite div_1e9. lra.
    + left. apply Hle. lia.
Qed.

(** [Seconds] is within the rounding error of the exact quotient, and keeps
    the sign of the duration. *)
Lemma Seconds_bounds (d : time.Duration) :
  int64.inRange d ->
  Qabs (time.Seconds d - inject_Z d / 1000000000)
    <= eps * (Qabs (inject_Z d / 1000000000) + 2) /\
  ((d < 0)%Z -> time.Seconds d < 0) /\
  ((0 < d)%Z -> 0 < time.Seconds d).
Proof.
  intros Hd. rewrite (Seconds_unfold d Hd).
  destruct (split_seconds d Hd) as (ES & EA & Ex & Hs & Ha & Ha1 & Ha2 & Hpos & Hneg).
  unfold float64.add, float64.div.
  set (S := ofInt (d ÷ 1000000000)) in *.
  set (A := ofInt (Z.rem d 1000000000) / c1e9) in *.
  set (s := inject_Z (d ÷ 1000000000)) in *.
  set (a := inject_Z (Z.rem d 1000000000) / 1000000000) in *.
  assert ((0 < d)%Z -> 0 < s + a) as Hsum.
  { intros H0. rewrite <- Ex, div_1e9.
    assert (1 <= inject_Z d)
      by (change 1 with (inject_Z 1); rewrite <- Zle_Qle; lia).
    lra. }
  rewrite Ex. clear Ex.
  pose proof tiny_le_nano as T1. pose proof tiny_le_one as T2.
  destruct (Z.lt_ge_cases d 0) as [Hlt|Hge].
  - destruct (Hneg Hlt) as (Hs0 & Ha0 & Hsa). clear Hpos Hneg.
    assert (A == 0 \/ normal A) as HAn.
    { destruct Ha as [E|[C|C]]; [left; lra|lra|right].
      apply normal_le with (c := 1 # 2000000000); [exact T1|lra]. }
    assert (A <= 0) as HA0 by lra.
    pose proof (round_nonpos_bounds A HA0 HAn) as Hg.
    set (g := round A) in *. rewrite eps_value in Hg.
    assert (S + g <= 0) as HB0 by lra.
    assert (S + g == 0 \/ normal (S + g)) as HBn.
    { right. destruct Hsa as [C|C].
      - apply normal_le with (c := 1); [exact T2|lra].
      - apply normal_le with (c := 1 # 2000000000); [exact T1|lra]. }
    pose proof (round_nonpos_bounds (S + g) HB0 HBn) as Hr.
    set (r := round (S + g)) in *. rewrite eps_value in Hr.
    split; [|split].
    + apply Qabs_Qle_condition. rewrite (Qabs_neg (s + a)) by lra.
      rewrite eps_value. lra.
    + intros _. destruct Hsa; lra.
    + intros C. lia.
  - destruct (Hpos Hge) as (Hs0 & Ha0). clear Hpos Hneg.
    assert (A == 0 \/ normal A) as HAn.
    { destruct Ha as [E|[C|C]]; [left; lra|right|lra].
      apply normal_ge with (c := 1 # 2000000000); [exact T1|lra]. }
    assert (0 <= A) as HA0 by lra.
    pose proof (round_nonneg_bounds A HA0 HAn) as Hg.
    set (g := round A) in *. rewrite eps_value in Hg.
    assert (0 <= S + g) as HB0 by lra.
    assert (S + g == 0 \/ normal (S + g)) as HBn.
    { destruct Hs as [E|[C|C]]; [|right|lra].
      - destruct Ha as [E'|[C'|C']]; [left; lra|right|lra].
        apply normal_ge with (c := 1 # 2000000000); [exact T1|lra].
      - apply normal_ge with (c := 1); [exact T2|lra]. }
    pose proof (round_nonneg_bounds (S + g) HB0 HBn) as Hr.
    set (r := round (S + g)) in *. rewrite eps_value in Hr.
    split; [|split].
    + apply Qabs_Qle_condition. rewrite (Qabs_pos (s + a)) by lra.
      rewrite eps_value. lra.
    + intros C. lia.
    + intros C. specialize (Hsum C). lra.
Qed.

Lemma ofInt_zero : ofInt 0 = 0.
Proof. reflexivity. Qed.

Lemma ofInt_negative (z : Z) : (z < 0)%Z -> ofInt z < 0.
Proof.
  intros Hz. unfold ofInt.
  assert (inject_Z z <= - (1)) as H1.
  { change (- (1)) with (inject_Z (-1)). rewrite <- Zle_Qle. lia. }
  assert (inject_Z z <= 0) as H0 by lra.
  assert (inject_Z z == 0 \/ normal (inject_Z z)) as Hn
    by (right; apply inject_Z_normal; lia).
  pose proof (round_nonpos_bounds _ H0 Hn) as Hr.
  rewrite eps_value in Hr. lra.
Qed.

Lemma ofInt_nonpos (z : Z) : (z <= 0)%Z -> ofInt z <= 0.
Proof.
  intros Hz. destruct (Z.eq_dec z 0) as [->|Hne].
  - rewrite ofInt_zero. lra.
  - apply Qlt_le_weak, ofInt_negative. lia.
Qed.

(** ** The elapsed-time helpers *)

(** On the sample durations the rounding model and the kernel's binary64
    compute the same seconds and the same microseconds. *)
Lemma float64_agrees_with_binary64 :
  forallb (fun d => binary64.agrees (binary64.Seconds d) (time.Seconds d))
          sampleDurations = true /\
  forallb (fun d => binary64.agrees (binary64.Microseconds d)
                                    (float64.ofInt (Z.quot d 1000)))
          sampleDurations = true.
Proof. split; vm_compute; reflexivity. Qed.

(** C2, counterexample: for the zero [Time] as start and a clock reading in
    2026 the elapsed duration saturates at the largest [Duration], and the
    helper returns 9,223,372,036,854,776: neither the 63,902,822,400,000,000
    whole microseconds of now minus start nor the 9,223,372,036,854,775 of
    the saturated duration; for a start 9,007,199,254,740,995
    microseconds back, inside the [Duration] range, the conversion to
    binary64 rounds the quotient up by one. *)
Lemma SinceInMicroseconds_outside_range :
  (SinceInMicroseconds newYear2026 0 == 9223372036854776 /\
   Z.quot (time.Since newYear2026 0) 1000 = 9223372036854775%Z /\
   Z.quot (newYear2026 - 0) 1000 = 63902822400000000%Z /\
   ~ microseconds_of_elapsed newYear2026 0) /\
  (int64.inRange (9007199254740995000 - 0)%Z /\
   SinceInMicroseconds 9007199254740995000 0 == 9007199254740996 /\
   Z.quot (9007199254740995000 - 0) 1000 = 9007199254740995%Z /\
   ~ microseconds_of_elapsed 9007199254740995000 0).
Proof.
  split; [split; [|split; [|split]]|split; [|split; [|split]]].
  - vm_compute. reflexivity.
  - reflexivity.
  - reflexivity.
  - unfold microseconds_of_elapsed. vm_compute. discriminate.
  - unfold int64.inRange; vm_compute. split; discriminate.
  - vm_compute. reflexivity.
  - reflexivity.
  - unfold microseconds_of_elapsed. vm_compute. discriminate.
Qed.

(** C2, amended: when now minus start fits a [Duration], the helper returns
    the binary64 conversion of the quotient of that nanosecond count by 1000,
    truncated toward zero; the returned value is that whole number exactly
    when its magnitude is at most [2 ^ 53], and it is 2,500,000 for a start
    2.5 seconds in the past. *)
Theorem SinceInMicroseconds_truncated (now start : time.Time) :
  int64.inRange (now - start) ->
  let d := (now - start)%Z in
  let q := Z.quot d 1000 in
  time.Since now start = d /\
  SinceInMicroseconds now start = ofInt q /\
  (d = 1000 * q + Z.rem d 1000)%Z /\
  (Z.abs (Z.rem d 1000) < 1000)%Z /\
  (Z.abs (1000 * q) <= Z.abs d)%Z /\
  ((Z.abs q <= 2 ^ 53)%Z -> microseconds_of_elapsed now start) /\
  (d = 2500000000%Z -> SinceInMicroseconds now start == 2500000).
Proof.
  intros Hr d q.
  assert (time.Since now start = d) as Ed by (apply Sub_exact; exact Hr).
  assert (SinceInMicroseconds now start = ofInt q) as Eq
    by (rewrite SinceInMicroseconds_unfold, Ed; reflexivity).
  split; [exact Ed|]. split; [exact Eq|].
  split; [apply Z.quot_rem'|].
  split; [subst q; Z.quot_rem_to_equations; lia|].
  split; [subst q; Z.quot_rem_to_equations; lia|].
  split.
  - intros Hq. unfold microseconds_of_elapsed. rewrite Eq. now apply ofInt_exact.
  - intros E. rewrite Eq. subst q. rewrite E. vm_compute. reflexivity.
Qed.

(** C2, witness: a start 2.5 seconds before the clock reading. *)
Lemma SinceInMicroseconds_truncated_witness :
  int64.inRange (2500000000 - 0) /\
  SinceInMicroseconds 2500000000 0 == 2500000.
Proof.
  assert (int64.inRange (2500000000 - 0)%Z) as Hr
    by (unfold int64.inRange; vm_compute; split; discriminate).
  split; [exact Hr|].
  exact (proj2 (proj2 (proj2 (proj2 (proj2 (proj2
           (SinceInMicroseconds_truncated 2500000000%Z 0%Z Hr)))))) eq_refl).
Defined.

(** C10: the result is always the binary64 conversion of an integer
    quotient, hence a whole number; for a start less than one microsecond in
    the future it is exactly 0, where rounding toward minus infinity would
    have given -1. *)
Theorem SinceInMicroseconds_toward_zero (now start : time.Time) :
  SinceInMicroseconds now start = ofInt (Z.quot (time.Since now start) 1000) /\
  (exists k : Z, SinceInMicroseconds now start == inject_Z k) /\
  ((now < start < now + 1000)%Z ->
   SinceInMicroseconds now start = 0 /\
   ~ SinceInMicroseconds now start == - (1) /\
   Z.quot (now - start) 1000 = 0%Z /\
   Z.div (now - start) 1000 = (-1)%Z).
Proof.
  split; [apply SinceInMicroseconds_unfold|]. split.
  - rewrite SinceInMicroseconds_unfold. apply ofInt_integral.
  - intros H.
    assert (Z.quot (now - start) 1000 = 0%Z) as Eq
      by (Z.quot_rem_to_equations; lia).
    assert (SinceInMicroseconds now start = 0) as E0.
    { rewrite SinceInMicroseconds_unfold. unfold time.Since.
      rewrite Sub_exact, Eq; [reflexivity|].
      unfold int64.inRange, int64.min, int64.max. lia. }
    split; [exact E0|]. split; [rewrite E0; discriminate|].
    split; [exact Eq|]. Z.div_mod_to_equations. lia.
Qed.

(** C3, counterexample: for the zero [Time] as start and a clock reading in
    2026 the helper returns less than 9,223,372,037 seconds, while now minus
    start is 63,902,822,400 seconds. *)
Lemma SinceInSeconds_outside_range :
  SinceInSeconds newYear2026 0 < 9223372037 /\
  63902822400 <= inject_Z (newYear2026 - 0) / 1000000000 /\
  ~ seconds_of_elapsed newYear2026 0.
Proof.
  split; [vm_compute; reflexivity|]. split; [vm_compute; discriminate|].
  apply Qlt_not_le. vm_compute. reflexivity.
Qed.

(** C3, amended: when now minus start fits a [Duration], the helper returns
    [Seconds] of exactly that difference, taken from the clock reading of the
    call (a later call sees the later reading), and the value is within the
    binary64 rounding error of the exact quotient by [1e9], positive for
    every start in the past however close; for a start 2.5 seconds in the
    past it is 2.5. *)
Theorem SinceInSeconds_full_precision (now start : time.Time) :
  int64.inRange (now - start)%Z ->
  time.Since now start = (now - start)%Z /\
  SinceInSeconds now start = time.Seconds (now - start)%Z /\
  seconds_of_elapsed now start /\
  ((0 < now - start)%Z -> 0 < SinceInSeconds now start) /\
  ((now - start = 2500000000)%Z -> SinceInSeconds now start == 5 # 2) /\
  (forall later : time.Time,
      int64.inRange (later - start)%Z ->
      (time.Since later start - time.Since now start = later - now)%Z).
Proof.
  intros Hr.
  assert (time.Since now start = (now - start)%Z) as Ed by (apply Sub_exact; exact Hr).
  assert (SinceInSeconds now start = time.Seconds (now - start)%Z) as Es
    by (unfold SinceInSeconds; now rewrite Ed).
  split; [exact Ed|]. split; [exact Es|]. split; [|split; [|split]].
  - unfold seconds_of_elapsed. rewrite Es. now apply Seconds_bounds.
  - intros H. rewrite Es. now apply Seconds_bounds.
  - intros E. rewrite Es, E. vm_compute. reflexivity.
  - intros later Hl. unfold time.Since. rewrite !Sub_exact by assumption. lia.
Qed.

(** C3, witness: a start 2.5 seconds before the clock reading. *)
Lemma SinceInSeconds_full_precision_witness :
  int64.inRange (2500000000 - 0) /\
  SinceInSeconds 2500000000 0 == 5 # 2.
Proof.
  assert (int64.inRange (2500000000 - 0)%Z) as Hr
    by (unfold int64.inRange; vm_compute; split; discriminate).
  split; [exact Hr|].
  exact (proj1 (proj2 (proj2 (proj2 (proj2
           (SinceInSeconds_full_precision 2500000000%Z 0%Z Hr))))) eq_refl).
Defined.

(** C4, counterexample: for a start half a microsecond in the future the
    microsecond helper returns 0, which is not negative. *)
Lemma future_start_not_always_negative :
  (newYear2026 < newYear2026 + 500)%Z /\
  SinceInMicroseconds newYear2026 (newYear2026 + 500) = 0 /\
  ~ negative_passed_through newYear2026 (newYear2026 + 500).
Proof.
  split; [reflexivity|]. split; [reflexivity|].
  intros [H _]. vm_compute in H. discriminate.
Qed.

(** C4, amended: for a start in the future the elapsed duration is
    negative and nothing clamps it to zero: the seconds helper returns a
    negative value, the microsecond helper a value that is never positive
    and is negative once the start is a microsecond or more ahead; up to
    [2 ^ 63] nanoseconds ahead the duration is exactly now minus start, and
    for a start one second ahead the helpers return -1 and -1,000,000. *)
Theorem future_start_gives_negative_elapsed (now start : time.Time) :
  (now < start)%Z ->
  (time.Since now start < 0)%Z /\
  SinceInSeconds now start < 0 /\
  SinceInMicroseconds now start <= 0 /\
  ((now + 1000 <= start)%Z -> SinceInMicroseconds now start < 0) /\
  ((start - now <= 2 ^ 63)%Z -> time.Since now start = (now - start)%Z) /\
  ((start - now = 1000000000)%Z ->
   SinceInSeconds now start == - (1) /\
   SinceInMicroseconds now start == - (1000000)).
Proof.
  intros Hlt.
  assert (time.Since now start < 0)%Z as Hneg by now apply Sub_negative.
  pose proof (Sub_inRange now start) as Hr. fold (time.Since now start) in Hr.
  split; [exact Hneg|]. split; [|split; [|split; [|split]]].
  - unfold SinceInSeconds. now apply Seconds_bounds.
  - rewrite SinceInMicroseconds_unfold. apply ofInt_nonpos.
    Z.quot_rem_to_equations. lia.
  - intros H. rewrite SinceInMicroseconds_unfold. apply ofInt_negative.
    assert (time.Since now start <= -1000)%Z.
    { unfold time.Since, time.Sub, time.minDuration, time.maxDuration, int64.min, int64.max.
      destruct (Z.ltb_spec (now - start) (- 2 ^ 63)); [lia|].
      destruct (Z.ltb_spec (2 ^ 63 - 1) (now - start)); lia. }
    Z.quot_rem_to_equations. lia.
  - intros H. apply Sub_exact. unfold int64.inRange, int64.min, int64.max. lia.
  - intros E.
    assert (time.Since now start = -1000000000)%Z as Ed.
    { unfold time.Since. rewrite Sub_exact; [lia|].
      unfold int64.inRange, int64.min, int64.max. lia. }
    split.
    + unfold SinceInSeconds. rewrite Ed. vm_compute. reflexivity.
    + rewrite SinceInMicroseconds_unfold, Ed. vm_compute. reflexivity.
Qed.

(** C4, witness: a start one second after the clock reading. *)
Lemma future_start_gives_negative_elapsed_witness :
  (0 < 1000000000)%Z /\
  SinceInSeconds 0 1000000000 == - (1) /\
  SinceInMicroseconds 0 1000000000 == - (1000000).
Proof.
  split; [reflexivity|].
  exact (proj2 (proj2 (proj2 (proj2 (proj2
           (future_start_gives_negative_elapsed 0%Z 1000000000%Z eq_refl)))))
           eq_refl).
Defined.

(** * Further properties *)

(** ** More on binary64 rounding *)

Lemma ilog2_unique (x : Q) (l : Z) :
  0 < x -> 2 ^ l <= x -> x < 2 ^ (l + 1) -> ilog2 x = l.
Proof.
  intros Hx Hlo Hhi.
  pose proof (ilog2_ge x l Hx Hlo). pose proof (ilog2_lt x (l + 1) Hx Hhi). lia.
Qed.

Lemma ilog2_comp (x y : Q) : 0 < x -> x == y -> ilog2 x = ilog2 y.
Proof.
  intros Hx E. symmetry. assert (0 < y) as Hy by now rewrite <- E.
  destruct (ilog2_spec x Hx) as [Hlo Hhi].
  apply ilog2_unique; [assumption| |]; now rewrite <- E.
Qed.

Lemma ilog2_le (x y : Q) : 0 < x -> x <= y -> (ilog2 x <= ilog2 y)%Z.
Proof.
  intros Hx Hxy. assert (0 < y) as Hy by lra.
  destruct (ilog2_spec x Hx) as [Hlo _].
  apply ilog2_ge; [assumption|lra].
Qed.

Lemma ulpExp_comp (x y : Q) : ~ x == 0 -> x == y -> ulpExp x = ulpExp y.
Proof.
  intros Hx E. unfold ulpExp. f_equal. f_equal.
  apply ilog2_comp; [|now rewrite E].
  pose proof (Qabs_nonneg x). destruct (Qeq_dec (Qabs x) 0) as [E0|]; [|lra].
  exfalso. apply Hx. revert E0. apply Qabs_case; intros; lra.
Qed.

Lemma nearestEven_comp (x y : Q) : x == y -> nearestEven x = nearestEven y.
Proof.
  intros E. unfold nearestEven. rewrite (Qfloor_comp _ _ E).
  assert (Qcompare (x - inject_Z (Qfloor y)) (1 # 2)
          = Qcompare (y - inject_Z (Qfloor y)) (1 # 2)) as ->; [|reflexivity].
  apply Qcompare_comp; [now rewrite E|reflexivity].
Qed.

#[local] Instance round_comp : Proper (Qeq ==> Qeq) round.
Proof.
  intros x y E. unfold round.
  destruct (Qeq_bool x 0) eqn:Ex, (Qeq_bool y 0) eqn:Ey.
  - reflexivity.
  - apply Qeq_bool_iff in Ex. rewrite E in Ex. apply Qeq_bool_iff in Ex. congruence.
  - apply Qeq_bool_iff in Ey. rewrite <- E in Ey. apply Qeq_bool_iff in Ey. congruence.
  - assert (~ x == 0) as Hx by (intros C; apply Qeq_bool_iff in C; congruence).
    rewrite (ulpExp_comp x y Hx E).
    rewrite (nearestEven_comp (x / 2 ^ ulpExp y) (y / 2 ^ ulpExp y)); [reflexivity|].
    now rewrite E.
Qed.

Lemma Qfloor_unique (x : Q) (k : Z) :
  inject_Z k <= x -> x < inject_Z (k + 1) -> Qfloor x = k.
Proof.
  intros Hlo Hhi.
  pose proof (Qfloor_le x) as H1. pose proof (Qlt_floor x) as H2.
  assert (inject_Z k < inject_Z (Qfloor x + 1)) as A by lra.
  assert (inject_Z (Qfloor x) < inject_Z (k + 1)) as B by lra.
  rewrite <- Zlt_Qlt in A, B. lia.
Qed.

(** The three ways [nearestEven] picks its result. *)
Lemma nearestEven_cases (y : Q) :
  let f := Qfloor y in
  let r := y - inject_Z f in
  0 <= r /\ r < 1 /\
  ((r < 1 # 2 /\ nearestEven y = f) \/
   (1 # 2 < r /\ nearestEven y = (f + 1)%Z) \/
   (r == 1 # 2 /\ nearestEven y = if Z.even f then f else (f + 1)%Z)).
Proof.
  intros f r. pose proof (Qfloor_le y) as Hlo. pose proof (Qlt_floor y) as Hhi.
  rewrite inject_Z_plus in Hhi. change (inject_Z 1) with 1 in Hhi.
  fold f in Hlo, Hhi.
  split; [unfold r; lra|]. split; [unfold r; lra|].
  unfold nearestEven. fold f. fold r.
  destruct (Qcompare r (1 # 2)) eqn:E.
  - apply Qeq_alt in E. right. right. now split.
  - apply Qlt_alt in E. left. now split.
  - apply Qgt_alt in E. right. left. now split.
Qed.

Lemma inject_Z_opp_pred (f : Z) : inject_Z (- f - 1) == - inject_Z f - 1.
Proof. unfold Z.sub. rewrite inject_Z_plus, inject_Z_opp. reflexivity. Qed.

Lemma nearestEven_opp (y : Q) : nearestEven (- y) = (- nearestEven y)%Z.
Proof.
  destruct (nearestEven_cases y) as (H0 & H1 & Hc).
  set (f := Qfloor y) in *.
  destruct (Qeq_dec y (inject_Z f)) as [E|NE].
  - rewrite (nearestEven_integer y f E).
    apply nearestEven_integer. rewrite E, inject_Z_opp. reflexivity.
  - assert (Qfloor (- y) = (- f - 1)%Z) as Ef.
    { apply Qfloor_unique.
      - rewrite inject_Z_opp_pred. lra.
      - replace (- f - 1 + 1)%Z with (- f)%Z by lia. rewrite inject_Z_opp.
        assert (~ y - inject_Z f == 0) by (intros C; apply NE; lra). lra. }
    destruct (nearestEven_cases (- y)) as (H0' & H1' & Hc').
    rewrite Ef in H0', H1', Hc'.
    rewrite inject_Z_opp_pred in H0', H1', Hc'.
    assert (Z.even (- f - 1) = negb (Z.even f)) as Ev.
    { replace (- f - 1)%Z with (- (f + 1))%Z by lia.
      rewrite Z.even_opp, Z.even_add. now destruct (Z.even f). }
    rewrite Ev in Hc'.
    destruct Hc as [[Hr ->]|[[Hr ->]|[Hr ->]]];
      destruct Hc' as [[Hr' ->]|[[Hr' ->]|[Hr' ->]]];
      try (exfalso; lra); try lia.
    destruct (Z.even f); cbn; lia.
Qed.

Lemma nearestEven_le (x y : Q) : x <= y -> (nearestEven x <= nearestEven y)%Z.
Proof.
  intros Hxy. pose proof (Qfloor_resp_le x y Hxy) as Hf.
  destruct (nearestEven_cases x) as (H0 & H1 & Hc).
  destruct (nearestEven_cases y) as (H0' & H1' & Hc').
  assert (nearestEven x <= Qfloor x + 1)%Z as Hxu.
  { destruct Hc as [[_ ->]|[[_ ->]|[_ ->]]];
      [lia|lia|destruct (Z.even (Qfloor x)); lia]. }
  assert (Qfloor y <= nearestEven y)%Z as Hyl.
  { destruct Hc' as [[_ ->]|[[_ ->]|[_ ->]]];
      [lia|lia|destruct (Z.even (Qfloor y)); lia]. }
  destruct (Z.eq_dec (Qfloor x) (Qfloor y)) as [E|NE]; [|lia].
  rewrite E in *.
  destruct Hc as [[Hr ->]|[[Hr ->]|[Hr ->]]];
    destruct Hc' as [[Hr' ->]|[[Hr' ->]|[Hr' ->]]];
    try lia; try (exfalso; lra); destruct (Z.even (Qfloor y)); lia.
Qed.

Lemma round_nonzero (x : Q) :
  ~ x == 0 -> round x = inject_Z (nearestEven (x / 2 ^ ulpExp x)) * 2 ^ ulpExp x.
Proof.
  intros H. unfold round.
  destruct (Qeq_bool x 0) eqn:E; [|reflexivity].
  apply Qeq_bool_iff in E. contradiction.
Qed.

(** Rounding is odd: the sign goes through. *)
Lemma round_opp (x : Q) : round (- x) == - round x.
Proof.
  destruct (Qeq_dec x 0) as [E|NE].
  - rewrite (round_zero x E), (round_zero (- x)); [reflexivity|lra].
  - assert (~ - x == 0) as NE' by (intros C; apply NE; lra).
    rewrite (round_nonzero x NE), (round_nonzero (- x) NE').
    assert (ulpExp (- x) = ulpExp x) as ->.
    { unfold ulpExp. f_equal. f_equal. apply ilog2_comp; [|apply Qabs_opp].
      rewrite Qabs_opp. pose proof (Qabs_nonneg x).
      destruct (Qeq_dec (Qabs x) 0) as [E0|]; [|lra].
      exfalso. apply NE. revert E0. apply Qabs_case; intros; lra. }
    pose proof (two_pow_pos (ulpExp x)) as HE.
    rewrite (nearestEven_comp (- x / 2 ^ ulpExp x) (- (x / 2 ^ ulpExp x)))
      by (field; lra).
    rewrite nearestEven_opp, inject_Z_opp. ring.
Qed.

Lemma round_nonneg (x : Q) : 0 <= x -> 0 <= round x.
Proof.
  intros H. destruct (Qeq_dec x 0) as [E|NE].
  - rewrite (round_zero x E). lra.
  - rewrite (round_nonzero x NE).
    pose proof (two_pow_pos (ulpExp x)) as HE.
    apply Qmult_le_0_compat; [|lra].
    change 0 with (inject_Z 0). rewrite <- Zle_Qle.
    rewrite <- (nearestEven_integer 0 0) by reflexivity.
    apply nearestEven_le. apply Qle_shift_div_l; lra.
Qed.

Lemma ulpExp_pos_le (x y : Q) : 0 < x -> x <= y -> (ulpExp x <= ulpExp y)%Z.
Proof.
  intros Hx Hxy. unfold ulpExp.
  rewrite (ilog2_comp (Qabs x) x), (ilog2_comp (Qabs y) y).
  - pose proof (ilog2_le x y Hx Hxy). lia.
  - rewrite Qabs_pos; lra.
  - apply Qabs_pos. lra.
  - rewrite Qabs_pos; lra.
  - apply Qabs_pos. lra.
Qed.

Lemma round_pos_le (x y : Q) : 0 < x -> x <= y -> round x <= round y.
Proof.
  intros Hx Hxy. assert (0 < y) as Hy by lra.
  rewrite (round_nonzero x), (round_nonzero y) by lra.
  pose proof (ulpExp_pos_le x y Hx Hxy) as He.
  pose proof (two_pow_pos (ulpExp x)) as HEx.
  pose proof (two_pow_pos (ulpExp y)) as HEy.
  destruct (Z.eq_dec (ulpExp x) (ulpExp y)) as [E|NE].
  - rewrite E in *. apply Qmult_le_compat_r; [|lra].
    rewrite <- Zle_Qle. apply nearestEven_le.
    apply Qmult_le_compat_r; [exact Hxy|].
    apply Qlt_le_weak, Qinv_lt_0_compat, HEy.
  - assert (ulpExp x + 1 <= ulpExp y)%Z as Hlt by lia.
    (* the rounded [x] stays at or below the top of its binade *)
    assert (inject_Z (nearestEven (x / 2 ^ ulpExp x)) <= 2 ^ 53) as Hx53.
    { rewrite <- (two_pow_inject 53) by lia. rewrite <- Zle_Qle.
      rewrite <- (nearestEven_integer (inject_Z (2 ^ 53)) (2 ^ 53)%Z) by reflexivity.
      apply nearestEven_le. rewrite (two_pow_inject 53) by lia.
      apply Qle_shift_div_r; [exact HEx|].
      rewrite <- two_pow_plus.
      destruct (ilog2_spec x Hx) as [_ Hhi].
      apply Qlt_le_weak. eapply Qlt_le_trans; [exact Hhi|].
      apply two_pow_le. unfold ulpExp.
      rewrite (ilog2_comp (Qabs x) x); [lia| |apply Qabs_pos; lra].
      rewrite Qabs_pos; lra. }
    (* the rounded [y] stays at or above the bottom of its binade *)
    assert (2 ^ 52 <= inject_Z (nearestEven (y / 2 ^ ulpExp y))) as Hy52.
    { rewrite <- (two_pow_inject 52) by lia. rewrite <- Zle_Qle.
      rewrite <- (nearestEven_integer (inject_Z (2 ^ 52)) (2 ^ 52)%Z) by reflexivity.
      apply nearestEven_le. rewrite (two_pow_inject 52) by lia.
      apply Qle_shift_div_l; [exact HEy|].
      rewrite <- two_pow_plus.
      destruct (ilog2_spec y Hy) as [Hlo _].
      eapply Qle_trans; [|exact Hlo].
      apply two_pow_le.
      assert (ilog2 (Qabs y) = ilog2 y) as Ey
        by (apply ilog2_comp; [rewrite Qabs_pos; lra|apply Qabs_pos; lra]).
      assert (-1074 <= ulpExp x)%Z by (unfold ulpExp; lia).
      unfold ulpExp in Hlt |- *. rewrite Ey in *. lia. }
    assert (2 ^ 53 * 2 ^ ulpExp x <= 2 ^ 52 * 2 ^ ulpExp y) as Hmid.
    { rewrite <- !two_pow_plus. apply two_pow_le. lia. }
    assert (inject_Z (nearestEven (x / 2 ^ ulpExp x)) * 2 ^ ulpExp x
            <= 2 ^ 53 * 2 ^ ulpExp x) as H1
      by (apply Qmult_le_compat_r; lra).
    assert (2 ^ 52 * 2 ^ ulpExp y
            <= inject_Z (nearestEven (y / 2 ^ ulpExp y)) * 2 ^ ulpExp y) as H2
      by (apply Qmult_le_compat_r; lra).
    lra.
Qed.

(** Rounding never reverses an order. *)
Lemma round_le (x y : Q) : x <= y -> round x <= round y.
Proof.
  intros Hxy.
  destruct (Qlt_le_dec 0 x) as [Hx|Hx].
  - now apply round_pos_le.
  - assert (round x <= 0) as Hrx.
    { pose proof (round_nonneg (- x)) as H. rewrite round_opp in H. lra. }
    destruct (Qlt_le_dec y 0) as [Hy|Hy].
    + pose proof (round_pos_le (- y) (- x)) as H.
      rewrite !round_opp in H. lra.
    + pose proof (round_nonneg y Hy). lra.
Qed.

Lemma ofInt_le (a b : Z) : (a <= b)%Z -> ofInt a <= ofInt b.
Proof. intros H. unfold ofInt. apply round_le. now rewrite <- Zle_Qle. Qed.

Lemma ofInt_opp (z : Z) : ofInt (- z) == - ofInt z.
Proof. unfold ofInt. rewrite inject_Z_opp. apply round_opp. Qed.

Lemma ofInt_positive (z : Z) : (0 < z)%Z -> 0 < ofInt z.
Proof.
  intros H. assert (ofInt (- z) < 0) as Hn by (apply ofInt_negative; lia).
  rewrite ofInt_opp in Hn. lra.
Qed.

Lemma ofInt_zero_iff (z : Z) : ofInt z == 0 <-> z = 0%Z.
Proof.
  split.
  - intros E. destruct (Z.lt_trichotomy z 0) as [H|[H|H]]; [|assumption|].
    + apply ofInt_negative in H. lra.
    + apply ofInt_positive in H. lra.
  - intros ->. reflexivity.
Qed.

Lemma round_one : round 1 == 1.
Proof. vm_compute. reflexivity. Qed.

(** The fractional part of [Seconds] stays within one second and keeps the
    sign of the remainder. *)
Lemma round_fraction (a : Q) :
  - (1) < a -> a < 1 ->
  - (1) <= round a /\ round a <= 1 /\
  (0 <= a -> 0 <= round a) /\ (a <= 0 -> round a <= 0).
Proof.
  intros Hlo Hhi.
  assert (round a <= round 1) as H1 by (apply round_le; lra).
  assert (round (- (1)) <= round a) as H2 by (apply round_le; lra).
  rewrite round_opp in H2. rewrite round_one in H1, H2.
  repeat split; try lra.
  - apply round_nonneg.
  - intros H. pose proof (round_nonneg (- a)) as H3. rewrite round_opp in H3. lra.
Qed.

Local Open Scope Z_scope.

Lemma Sub_le (t t' u u' : time.Time) :
  t <= t' -> u' <= u -> time.Sub t u <= time.Sub t' u'.
Proof.
  intros Ht Hu. unfold time.Sub, time.minDuration, time.maxDuration, int64.min, int64.max.
  destruct (Z.ltb_spec (t - u) (- 2 ^ 63)), (Z.ltb_spec (t' - u') (- 2 ^ 63));
    try destruct (Z.ltb_spec (2 ^ 63 - 1) (t - u));
    try destruct (Z.ltb_spec (2 ^ 63 - 1) (t' - u')); lia.
Qed.

Lemma Sub_sign (t u : time.Time) :
  (time.Sub t u < 0 <-> t < u) /\ (time.Sub t u = 0 <-> t = u) /\
  (0 < time.Sub t u <-> u < t).
Proof.
  unfold time.Sub, time.minDuration, time.maxDuration, int64.min, int64.max.
  destruct (Z.ltb_spec (t - u) (- 2 ^ 63));
    [|destruct (Z.ltb_spec (2 ^ 63 - 1) (t - u))]; lia.
Qed.

Local Open Scope Q_scope.

(** [Seconds] never reverses the order of two durations. *)
Lemma Seconds_le (d d' : time.Duration) :
  int64.inRange d -> int64.inRange d' -> (d <= d')%Z ->
  time.Seconds d <= time.Seconds d'.
Proof.
  intros Hd Hd' Hle. rewrite (Seconds_unfold d Hd), (Seconds_unfold d' Hd').
  destruct (split_seconds d Hd) as (ES & EA & _ & _ & _ & Ha1 & Ha2 & Hpos & Hneg).
  destruct (split_seconds d' Hd') as (ES' & EA' & _ & _ & _ & Ha1' & Ha2' & Hpos' & Hneg').
  unfold float64.add, float64.div. apply round_le.
  rewrite ES, ES'. rewrite (round_comp _ _ EA), (round_comp _ _ EA').
  set (s := d ÷ 1000000000) in *. set (s' := d' ÷ 1000000000) in *.
  set (a := inject_Z (Z.rem d 1000000000) / 1000000000) in *.
  set (a' := inject_Z (Z.rem d' 1000000000) / 1000000000) in *.
  destruct (round_fraction a Ha1 Ha2) as (G1 & G2 & G3 & G4).
  destruct (round_fraction a' Ha1' Ha2') as (G1' & G2' & G3' & G4').
  assert (s <= s')%Z as Hs by (subst s s'; Z.quot_rem_to_equations; lia).
  destruct (Z.eq_dec s s') as [E|NE].
  - rewrite <- E.
    assert (a <= a') as Haa.
    { unfold a, a'. rewrite !div_1e9.
      assert (inject_Z (Z.rem d 1000000000) <= inject_Z (Z.rem d' 1000000000)).
      { rewrite <- Zle_Qle. subst s s'. Z.quot_rem_to_equations. lia. }
      lra. }
    pose proof (round_le a a' Haa). lra.
  - assert (inject_Z s + 1 <= inject_Z s') as Hss.
    { change 1 with (inject_Z 1). rewrite <- inject_Z_plus, <- Zle_Qle. lia. }
    destruct (Z.lt_ge_cases d 0) as [Hneg0|Hpos0].
    + destruct (Hneg Hneg0) as (_ & Ha0 & _). specialize (G4 Ha0). lra.
    + destruct (Hpos Hpos0) as (_ & Ha0).
      assert (0 <= d')%Z as Hpos0' by lia.
      destruct (Hpos' Hpos0') as (_ & Ha0'). specialize (G3' Ha0'). lra.
Qed.

Lemma Seconds_opp (d : time.Duration) :
  int64.inRange d -> int64.inRange (- d) ->
  time.Seconds (- d) == - time.Seconds d.
Proof.
  intros Hd Hd'. rewrite (Seconds_unfold d Hd), (Seconds_unfold (- d)%Z Hd').
  rewrite Z.quot_opp_l, Z.rem_opp_l by lia.
  unfold float64.add, float64.div.
  rewrite !ofInt_opp.
  assert (- ofInt (Z.rem d 1000000000) / c1e9
          == - (ofInt (Z.rem d 1000000000) / c1e9)) as -> by (field; rewrite c1e9_exact; lra).
  rewrite round_opp.
  assert (- ofInt (d ÷ 1000000000) + - round (ofInt (Z.rem d 1000000000) / c1e9)
          == - (ofInt (d ÷ 1000000000) + round (ofInt (Z.rem d 1000000000) / c1e9)))
    as -> by ring.
  apply round_opp.
Qed.

(** A whole number of seconds is returned as it is. *)
Lemma Seconds_whole (k : Z) :
  int64.inRange (1000000000 * k) ->
  time.Seconds (1000000000 * k) == inject_Z k.
Proof.
  intros Hd. rewrite (Seconds_unfold _ Hd).
  assert ((1000000000 * k) ÷ 1000000000 = k)%Z as ->
    by (rewrite Z.mul_comm; apply Z.quot_mul; lia).
  assert (Z.rem (1000000000 * k) 1000000000 = 0)%Z as ->
    by (rewrite Z.mul_comm; apply Z.rem_mul; lia).
  unfold float64.add, float64.div.
  rewrite (round_zero (ofInt 0 / c1e9)) by reflexivity.
  assert (ofInt k + 0 == inject_Z k) as E.
  { rewrite ofInt_exact; [ring|].
    unfold int64.inRange, int64.min, int64.max in Hd. lia. }
  rewrite (round_comp _ _ E). apply ofInt_exact.
  unfold int64.inRange, int64.min, int64.max in Hd. lia.
Qed.

(** X8: the seconds helper never goes backwards: a later clock reading or
    an earlier start never gives a smaller result, saturated durations
    included. *)
Theorem SinceInSeconds_monotone (now now' start start' : time.Time) :
  (now <= now')%Z -> (start' <= start)%Z ->
  SinceInSeconds now start <= SinceInSeconds now' start'.
Proof.
  intros Hn Hs. unfold SinceInSeconds, time.Since.
  apply Seconds_le; try apply Sub_inRange. now apply Sub_le.
Qed.

(** X8, witness: a later reading and an earlier start. *)
Lemma SinceInSeconds_monotone_witness :
  (1000 <= 2000)%Z /\ (5 <= 7)%Z /\
  SinceInSeconds 1000 7 <= SinceInSeconds 2000 5.
Proof.
  assert (1000 <= 2000)%Z as H1 by lia. assert (5 <= 7)%Z as H2 by lia.
  split; [exact H1|]. split; [exact H2|].
  exact (SinceInSeconds_monotone 1000%Z 2000%Z 7%Z 5%Z H1 H2).
Defined.

(** X6: the microsecond helper never goes backwards: a later clock reading
    or an earlier start never gives a smaller result, saturated durations
    included. *)
Theorem SinceInMicroseconds_monotone (now now' start start' : time.Time) :
  (now <= now')%Z -> (start' <= start)%Z ->
  SinceInMicroseconds now start <= SinceInMicroseconds now' start'.
Proof.
  intros Hn Hs. rewrite !SinceInMicroseconds_unfold. apply ofInt_le.
  pose proof (Sub_le now now' start start' Hn Hs) as H. unfold time.Since.
  Z.quot_rem_to_equations. lia.
Qed.

(** X6, witness: a later reading and an earlier start. *)
Lemma SinceInMicroseconds_monotone_witness :
  (1000 <= 2000)%Z /\ (5 <= 7)%Z /\
  SinceInMicroseconds 1000 7 <= SinceInMicroseconds 2000 5.
Proof.
  assert (1000 <= 2000)%Z as H1 by lia. assert (5 <= 7)%Z as H2 by lia.
  split; [exact H1|]. split; [exact H2|].
  exact (SinceInMicroseconds_monotone 1000%Z 2000%Z 7%Z 5%Z H1 H2).
Defined.

(** X13: whatever the clock reading and the start, the microsecond helper
    stays within 9,223,372,036,854,776 and the seconds helper within
    9,223,372,037 of zero; beyond the range of a [Duration] the results are
    the constants of the saturated duration. *)
Theorem helpers_bounded (now start : time.Time) :
  (- (9223372036854776) <= SinceInMicroseconds now start /\
   SinceInMicroseconds now start <= 9223372036854776) /\
  (- (9223372037) <= SinceInSeconds now start /\
   SinceInSeconds now start <= 9223372037) /\
  ((int64.max < now - start)%Z ->
   SinceInMicroseconds now start == 9223372036854776 /\
   SinceInSeconds now start = time.Seconds time.maxDuration) /\
  ((now - start < int64.min)%Z ->
   SinceInMicroseconds now start == - (9223372036854776) /\
   SinceInSeconds now start = time.Seconds time.minDuration).
Proof.
  pose proof (Sub_inRange now start) as Hr. fold (time.Since now start) in Hr.
  assert (int64.inRange int64.min) as Hmin
    by (unfold int64.inRange; vm_compute; split; discriminate).
  assert (int64.inRange int64.max) as Hmax
    by (unfold int64.inRange; vm_compute; split; discriminate).
  split; [|split; [|split]].
  - rewrite SinceInMicroseconds_unfold.
    assert (ofInt (int64.min ÷ 1000) <= ofInt (time.Since now start ÷ 1000)) as H1.
    { apply ofInt_le. unfold int64.inRange in Hr. Z.quot_rem_to_equations. lia. }
    assert (ofInt (time.Since now start ÷ 1000) <= ofInt (int64.max ÷ 1000)) as H2.
    { apply ofInt_le. unfold int64.inRange in Hr. Z.quot_rem_to_equations. lia. }
    assert (ofInt (int64.min ÷ 1000) == - (9223372036854776)) as E1
      by (vm_compute; reflexivity).
    assert (ofInt (int64.max ÷ 1000) == 9223372036854776) as E2
      by (vm_compute; reflexivity).
    rewrite E1 in H1. rewrite E2 in H2. split; assumption.
  - unfold SinceInSeconds.
    assert (time.Seconds int64.min <= time.Seconds (time.Since now start)) as H1
      by (apply Seconds_le; [assumption|assumption|apply Hr]).
    assert (time.Seconds (time.Since now start) <= time.Seconds int64.max) as H2
      by (apply Seconds_le; [assumption|assumption|apply Hr]).
    assert (- (9223372037) <= time.Seconds int64.min) as E1
      by (vm_compute; discriminate).
    assert (time.Seconds int64.max <= 9223372037) as E2
      by (vm_compute; discriminate).
    split; lra.
  - intros H. unfold SinceInSeconds. rewrite SinceInMicroseconds_unfold.
    unfold time.Since. rewrite (Sub_saturates_high _ _ H).
    split; [vm_compute|]; reflexivity.
  - intros H. unfold SinceInSeconds. rewrite SinceInMicroseconds_unfold.
    unfold time.Since. rewrite (Sub_saturates_low _ _ H).
    split; [vm_compute|]; reflexivity.
Qed.

(** X9: the seconds helper has the sign of now minus start: negative
    exactly for a start in the future, zero exactly for a start at the clock
    reading, positive exactly for a start in the past. *)
Theorem SinceInSeconds_sign (now start : time.Time) :
  (SinceInSeconds now start < 0 <-> (now < start)%Z) /\
  (SinceInSeconds now start == 0 <-> now = start) /\
  (0 < SinceInSeconds now start <-> (start < now)%Z).
Proof.
  pose proof (Sub_inRange now start) as Hr.
  destruct (Sub_sign now start) as (Sn & Sz & Sp).
  destruct (Seconds_bounds (time.Sub now start) Hr) as (_ & Bn & Bp).
  unfold SinceInSeconds, time.Since.
  assert (time.Sub now start = 0%Z -> time.Seconds (time.Sub now start) == 0) as Bz
    by (intros ->; reflexivity).
  destruct (Z.lt_trichotomy (time.Sub now start) 0) as [H|[H|H]].
  - specialize (Bn H). repeat split; intros; try lia; try lra;
      try (exfalso; lra); try (exfalso; lia).
  - specialize (Bz H). repeat split; intros; try lia; try lra;
      try (exfalso; lra); try (exfalso; lia).
  - specialize (Bp H). repeat split; intros; try lia; try lra;
      try (exfalso; lra); try (exfalso; lia).
Qed.

(** X7: the microsecond helper returns zero exactly when the start is less
    than a microsecond away from the clock reading, on either side. *)
Theorem SinceInMicroseconds_zero_iff (now start : time.Time) :
  SinceInMicroseconds now start == 0 <-> (Z.abs (now - start) < 1000)%Z.
Proof.
  rewrite SinceInMicroseconds_unfold, ofInt_zero_iff.
  unfold time.Since, time.Sub, time.minDuration, time.maxDuration, int64.min, int64.max.
  destruct (Z.ltb_spec (now - start) (- 2 ^ 63)) as [L|L];
    [|destruct (Z.ltb_spec (2 ^ 63 - 1) (now - start)) as [U|U]];
    split; intros H; try (vm_compute in H; discriminate);
    try (Z.quot_rem_to_equations; lia).
Qed.

(** X11: the two helpers agree up to the truncation of the microsecond
    count: a million times the seconds differs from the microseconds by less
    than one plus the rounding error of [Seconds], which is less than 1.001
    for elapsed times up to [10 ^ 15] nanoseconds. *)
Theorem helpers_agree (now start : time.Time) :
  int64.inRange (now - start) ->
  let d := (now - start)%Z in
  ((Z.abs (d ÷ 1000) <= 2 ^ 53)%Z ->
   Qabs (SinceInSeconds now start * 1000000 - SinceInMicroseconds now start)
   < 1 + 1000000 * eps * (Qabs (inject_Z d / 1000000000) + 2)) /\
  ((Z.abs d <= 10 ^ 15)%Z ->
   Qabs (SinceInSeconds now start * 1000000 - SinceInMicroseconds now start)
   < 1001 # 1000).
Proof.
  intros Hr d.
  assert (time.Since now start = d) as Ed by (apply Sub_exact; exact Hr).
  assert ((Z.abs (d ÷ 1000) <= 2 ^ 53)%Z ->
          Qabs (SinceInSeconds now start * 1000000 - SinceInMicroseconds now start)
          < 1 + 1000000 * eps * (Qabs (inject_Z d / 1000000000) + 2)) as Main.
  { intros Hq. unfold SinceInSeconds. rewrite SinceInMicroseconds_unfold, Ed.
    rewrite (ofInt_exact _ Hq).
    destruct (Seconds_bounds d Hr) as (Hb & _ & _).
    apply Qabs_Qle_condition in Hb.
    set (S := time.Seconds d) in *.
    assert (inject_Z d == 1000 * inject_Z (d ÷ 1000) + inject_Z (Z.rem d 1000)) as Edq.
    { rewrite (Z.quot_rem' d 1000) at 1. rewrite inject_Z_plus, inject_Z_mult. reflexivity. }
    assert (- (1000) < inject_Z (Z.rem d 1000) /\ inject_Z (Z.rem d 1000) < 1000) as [R1 R2].
    { change 1000 with (inject_Z 1000). change (- inject_Z 1000) with (inject_Z (-1000)).
      rewrite <- !Zlt_Qlt. Z.quot_rem_to_equations. lia. }
    rewrite div_1e9 in Hb. rewrite div_1e9. rewrite eps_value in *.
    set (ax := Qabs (inject_Z d * (1 # 1000000000))) in *.
    apply Qabs_Qlt_condition. split; lra. }
  split; [exact Main|].
  intros Hd.
  assert (Z.abs (d ÷ 1000) <= 2 ^ 53)%Z as Hq by (Z.quot_rem_to_equations; lia).
  specialize (Main Hq).
  assert (Qabs (inject_Z d / 1000000000) <= 1000000) as Hx.
  { apply Qabs_Qle_condition. rewrite div_1e9.
    assert (- (1000000000000000) <= inject_Z d /\ inject_Z d <= 1000000000000000) as [D1 D2].
    { change 1000000000000000 with (inject_Z 1000000000000000).
      change (- inject_Z 1000000000000000) with (inject_Z (-1000000000000000)).
      rewrite <- !Zle_Qle. lia. }
    split; lra. }
  rewrite eps_value in Main.
  set (ax := Qabs (inject_Z d / 1000000000)) in *. lra.
Qed.

(** X11, witness: a start 2.500000999 seconds in the past. *)
Lemma helpers_agree_witness :
  int64.inRange (2500000999 - 0) /\
  Qabs (SinceInSeconds 2500000999 0 * 1000000 - SinceInMicroseconds 2500000999 0)
  < 1001 # 1000.
Proof.
  assert (int64.inRange (2500000999 - 0)%Z) as Hr
    by (unfold int64.inRange; vm_compute; split; discriminate).
  split; [exact Hr|].
  apply (helpers_agree 2500000999%Z 0%Z Hr). vm_compute. discriminate.
Defined.

(** X12: exchanging the clock reading and the start negates both results,
    as long as the difference is not the one [Duration] without a negative. *)
Theorem helpers_antisymmetric (now start : time.Time) :
  (- int64.max <= now - start <= int64.max)%Z ->
  SinceInMicroseconds start now == - SinceInMicroseconds now start /\
  SinceInSeconds start now == - SinceInSeconds now start.
Proof.
  intros H.
  assert (int64.inRange (now - start)) as Hr
    by (unfold int64.inRange, int64.min, int64.max in *; lia).
  assert (int64.inRange (- (now - start))) as Hr'
    by (unfold int64.inRange, int64.min, int64.max in *; lia).
  assert (time.Since now start = (now - start)%Z) as E by (apply Sub_exact; exact Hr).
  assert (time.Since start now = (- (now - start))%Z) as E'.
  { unfold time.Since. rewrite Sub_exact; [lia|].
    replace (start - now)%Z with (- (now - start))%Z by lia. exact Hr'. }
  split.
  - rewrite !SinceInMicroseconds_unfold, E, E'.
    rewrite Z.quot_opp_l by lia. apply ofInt_opp.
  - unfold SinceInSeconds. rewrite E, E'. now apply Seconds_opp.
Qed.

(** X12, witness: a start 2.5 seconds in the past, and the same ahead. *)
Lemma helpers_antisymmetric_witness :
  (- int64.max <= 2500000000 - 0 <= int64.max)%Z /\
  SinceInMicroseconds 0 2500000000 == - SinceInMicroseconds 2500000000 0 /\
  SinceInSeconds 0 2500000000 == - SinceInSeconds 2500000000 0.
Proof.
  assert (- int64.max <= 2500000000 - 0 <= int64.max)%Z as H
    by (vm_compute; split; discriminate).
  split; [exact H|]. exact (helpers_antisymmetric 2500000000%Z 0%Z H).
Defined.

(** X10: an elapsed time of a whole number of seconds is returned as that
    number, with no rounding. *)
Theorem SinceInSeconds_whole_seconds (start : time.Time) (k : Z) :
  int64.inRange (1000000000 * k) ->
  SinceInSeconds (start + 1000000000 * k) start == inject_Z k.
Proof.
  intros Hr. unfold SinceInSeconds, time.Since.
  rewrite Sub_exact;
    replace (start + 1000000000 * k - start)%Z with (1000000000 * k)%Z by lia;
    [|exact Hr].
  now apply Seconds_whole.
Qed.

(** X10, witness: a start exactly one day in the past. *)
Lemma SinceInSeconds_whole_seconds_witness :
  int64.inRange (1000000000 * 86400) /\
  SinceInSeconds (newYear2026 + 1000000000 * 86400) newYear2026 == 86400.
Proof.
  assert (int64.inRange (1000000000 * 86400)) as Hr
    by (unfold int64.inRange; vm_compute; split; discriminate).
  split; [exact Hr|]. exact (SinceInSeconds_whole_seconds newYear2026 86400%Z Hr).
Defined.

(** ** More on the registrar and the declarations *)

Lemma NoDup_identity_install (c : Registerable) (r : legacyregistry.Registry) :
  legacyregistry.collides c r = false ->
  NoDup (map identity r) -> NoDup (map identity (r ++ [c])).
Proof.
  intros Hc Hnd. rewrite map_app. cbn [map].
  apply NoDup_app; [exact Hnd|repeat constructor; intros []|].
  intros x Hx [<-|[]].
  apply collides_In in Hx. congruence.
Qed.

Lemma seq_MustRegister (c : Registerable) (g : Go) (o : sync.Once)
    (r : legacyregistry.Registry) :
  (MustRegister c ;; g)%go (mkWorld o r)
  = if legacyregistry.collides c r
    then (Panicked "duplicate metrics collector registration attempted",
          mkWorld o r)
    else g (mkWorld o (r ++ [c])).
Proof.
  unfold seq, MustRegister, legacyregistry.Register.
  cbn [defaultRegistry registerMetrics].
  destruct (legacyregistry.collides c r); reflexivity.
Qed.

(** One pass over a list of collectors: what it installs is a prefix of the
    list, appended to the registry; it returns exactly when the prefix is the
    whole list, and it keeps the identities of the registry distinct. *)
Lemma MustRegisterAll_run (cs : list Registerable) :
  forall w,
  exists l rest,
    cs = l ++ rest /\
    snd (MustRegisterAll cs w)
    = mkWorld (registerMetrics w) (defaultRegistry w ++ l) /\
    (fst (MustRegisterAll cs w) = Returned <-> rest = []) /\
    (NoDup (map identity (defaultRegistry w)) ->
     NoDup (map identity (defaultRegistry w ++ l))).
Proof.
  induction cs as [|c cs IH]; intros [o r]; cbn [MustRegisterAll].
  - exists [], []. cbn. rewrite app_nil_r. repeat split; trivial.
  - rewrite seq_MustRegister. cbn [defaultRegistry registerMetrics].
    destruct (legacyregistry.collides c r) eqn:Hc.
    + exists [], (c :: cs). cbn [fst snd app]. rewrite app_nil_r.
      repeat split; auto; intros; discriminate.
    + destruct (IH (mkWorld o (r ++ [c]))) as (l & rest & E & Hs & Hf & Hn).
      cbn [defaultRegistry registerMetrics] in *.
      exists (c :: l), rest.
      replace (r ++ c :: l) with ((r ++ [c]) ++ l) by now rewrite <- app_assoc.
      repeat split; trivial.
      * cbn. now rewrite E.
      * apply Hf.
      * apply Hf.
      * intros Hnd. apply Hn. now apply NoDup_identity_install.
Qed.

Lemma Register_run (w : World) :
  sync.done (registerMetrics w) = false ->
  Register w
  = (fst (MustRegisterAll allSeries w),
     mkWorld (sync.mkOnce true)
             (defaultRegistry (snd (MustRegisterAll allSeries w)))).
Proof.
  intros H. rewrite Register_unfold. unfold Once_Do. rewrite H.
  now destruct (MustRegisterAll allSeries w).
Qed.

Lemma NoDup_app_disjoint {A} (l l' : list A) :
  NoDup (l ++ l') -> forall x, In x l -> In x l' -> False.
Proof.
  induction l as [|a l IH]; intros H x Hl Hl'; [destruct Hl|].
  cbn in H. inversion H as [|? ? Hna Hnd]; subst.
  destruct Hl as [->|Hl].
  - apply Hna. apply in_or_app. now right.
  - now apply (IH Hnd x).
Qed.

Lemma fresh_or_collision (cs : list Registerable) (r : legacyregistry.Registry) :
  fresh cs r \/ exists c, In c cs /\ legacyregistry.collides c r = true.
Proof.
  induction cs as [|c cs [IH|[d [Hd Hc]]]].
  - left. intros x [].
  - destruct (legacyregistry.collides c r) eqn:E.
    + right. exists c. split; [now left|assumption].
    + left. intros x [<-|Hx]; [assumption|now apply IH].
  - right. exists d. split; [now right|assumption].
Qed.

(** X2: a call of [Register] only appends to the registry: what it adds is
    an initial part of the eight series in declaration order, nothing when
    [done] is set and all eight when a first call returns. *)
Theorem Register_only_appends (w : World) :
  exists l rest,
    allSeries = l ++ rest /\
    defaultRegistry (snd (Register w)) = defaultRegistry w ++ l /\
    (sync.done (registerMetrics w) = true -> l = []) /\
    (fst (Register w) = Returned ->
     sync.done (registerMetrics w) = false -> l = allSeries).
Proof.
  destruct (sync.done (registerMetrics w)) eqn:Hd.
  - exists [], allSeries. rewrite (Register_fired w Hd), app_nil_r.
    repeat split; trivial. discriminate.
  - destruct (MustRegisterAll_run allSeries w) as (l & rest & E & Hs & Hf & _).
    exists l, rest. rewrite (Register_run w Hd). cbn [fst snd]. rewrite Hs.
    repeat split; trivial; try discriminate.
    intros Hr _. apply Hf in Hr. subst rest. now rewrite app_nil_r in E.
Qed.

(** X3: a call of [Register] keeps the identities in the registry distinct,
    whether it returns or panics. *)
Theorem Register_keeps_identities_distinct (w : World) :
  NoDup (map identity (defaultRegistry w)) ->
  NoDup (map identity (defaultRegistry (snd (Register w)))).
Proof.
  intros Hnd. destruct (sync.done (registerMetrics w)) eqn:Hd.
  - now rewrite (Register_fired w Hd).
  - destruct (MustRegisterAll_run allSeries w) as (l & rest & E & Hs & _ & Hn).
    rewrite (Register_run w Hd). cbn [snd defaultRegistry]. rewrite Hs.
    now apply Hn.
Qed.

(** X3, witness: a registry holding one collector of another package. *)
Lemma Register_keeps_identities_distinct_witness :
  NoDup (map identity (defaultRegistry (processStart [DeprecatedDockerOperations]))) /\
  NoDup (map identity (defaultRegistry
           (snd (Register (processStart [DeprecatedDockerOperations]))))).
Proof.
  assert (NoDup (map identity (defaultRegistry (processStart [DeprecatedDockerOperations]))))
    as H by (repeat constructor; intros []).
  split; [exact H|].
  exact (Register_keeps_identities_distinct (processStart [DeprecatedDockerOperations]) H).
Defined.

(** X4: a call of [Register] returns normally exactly when [done] is set
    or none of the eight identities is in the registry. *)
Theorem Register_returns_iff (w : World) :
  fst (Register w) = Returned <->
  sync.done (registerMetrics w) = true \/ fresh allSeries (defaultRegistry w).
Proof.
  destruct (sync.done (registerMetrics w)) eqn:Hd.
  - rewrite (Register_fired w Hd). cbn. tauto.
  - rewrite (Register_run w Hd). cbn [fst]. split.
    + intros Hr. right.
      destruct (fresh_or_collision allSeries (defaultRegistry w)) as [Hf|Hc];
        [assumption|exfalso].
      destruct (first_collision _ _ Hc) as (pre & c & post & E & Hf & Hcc).
      rewrite E in Hr. rewrite MustRegisterAll_rejected in Hr; [discriminate| |assumption|].
      * apply NoDup_app_l with (l' := map identity (c :: post)).
        rewrite <- map_app, <- E. apply allSeries_NoDup.
      * rewrite collides_app, Hcc. reflexivity.
    + intros [C|Hf]; [discriminate|].
      rewrite MustRegisterAll_fresh; [reflexivity|apply allSeries_NoDup|assumption].
Qed.

(** X5: after a rejection only the first call panics; every later call
    returns normally over the same state, and a series declared after the
    rejected one, if it was not in the registry before, is not in it after
    any number of calls. *)
Theorem Register_failure_is_permanent (r : legacyregistry.Registry) (n : nat) :
  (exists c, In c allSeries /\ legacyregistry.collides c r = true) ->
  exists pre c post msg,
    allSeries = pre ++ c :: post /\
    RegisterTimes (S n) (processStart r)
    = (Panicked msg :: repeat Returned n,
       mkWorld (sync.mkOnce true) (r ++ pre)) /\
    (forall x, In x post -> legacyregistry.collides x r = false ->
               installed x (r ++ pre) = 0%nat).
Proof.
  intros H. destruct (first_collision _ _ H) as (pre & c & post & E & Hf & Hc).
  exists pre, c, post, "duplicate metrics collector registration attempted"%string.
  assert (NoDup (map identity (pre ++ c :: post))) as Hnd
    by (rewrite <- E; apply allSeries_NoDup).
  split; [exact E|]. split.
  - cbn [RegisterTimes]. rewrite (Register_run (processStart r)) by reflexivity.
    rewrite E, MustRegisterAll_rejected.
    + cbn [fst snd defaultRegistry processStart registerMetrics].
      rewrite RegisterTimes_fired by reflexivity. reflexivity.
    + rewrite map_app in Hnd. now apply NoDup_app_l in Hnd.
    + exact Hf.
    + cbn [processStart defaultRegistry]. rewrite collides_app, Hc. reflexivity.
  - intros x Hx Hxr. apply installed_fresh. rewrite collides_app, Hxr. cbn [orb].
    destruct (legacyregistry.collides x pre) eqn:Hxp; [exfalso|reflexivity].
    apply collides_In in Hxp.
    rewrite map_app in Hnd.
    apply (NoDup_app_disjoint _ _ Hnd (identity x) Hxp).
    cbn [map]. right. now apply in_map.
Qed.

(** X5, witness: three calls over a registry that already holds the
    identity of [DockerOperationsErrors]. *)
Lemma Register_failure_is_permanent_witness :
  (exists c, In c allSeries /\ legacyregistry.collides c [DockerOperationsErrors] = true) /\
  exists pre c post msg,
    allSeries = pre ++ c :: post /\
    RegisterTimes 3 (processStart [DockerOperationsErrors])
    = (Panicked msg :: repeat Returned 2,
       mkWorld (sync.mkOnce true) ([DockerOperationsErrors] ++ pre)) /\
    (forall x, In x post -> legacyregistry.collides x [DockerOperationsErrors] = false ->
               installed x ([DockerOperationsErrors] ++ pre) = 0%nat).
Proof.
  assert (exists c, In c allSeries /\ legacyregistry.collides c [DockerOperationsErrors] = true)
    as H by (exists DockerOperationsErrors; split; [cbn; tauto|reflexivity]).
  split; [exact H|].
  exact (Register_failure_is_permanent [DockerOperationsErrors] 2 H).
Defined.

(** X1: each current series and the deprecated series declared in the same
    position share subsystem, labels and stability level ALPHA; for the three
    counters they share kind and help text, and the current name is the
    deprecated name followed by "_total". *)
Theorem deprecated_counterparts :
  Forall2
    (fun cur dep =>
       subsystem cur = subsystem dep /\
       labels cur = labels dep /\
       stabilityLevel cur = ALPHA /\ stabilityLevel dep = ALPHA /\
       (kind cur = Counter ->
        kind dep = Counter /\ help cur = help dep /\
        name cur = (name dep ++ "_total")%string))
    currentSeries deprecatedSeries.
Proof.
  repeat constructor; discriminate.
Qed.
